(** * Timeghost: events, validated triples and the selector

    A shallow embedding of [app.py] (classes [Event] and [Timeghost]) and the
    properties of its specification.

    Modelling conventions.
    - A Python [str] is a [string] of characters with code points below 256.
    - A [datetime] is its position on the time line, an integer number of
      microseconds (the resolution of [datetime] and [timedelta]); all
      datetimes are timezone-aware, as the data model of the specification
      has them, so comparison and subtraction never raise.  A [timedelta]
      is an integer number of microseconds.
    - A Python [float] is an IEEE 754 binary64 number, [spec_float] with
      precision 53 and maximal exponent 1024.
    - [Event] defines no [__eq__]: [in] and [list.remove] compare objects by
      identity.  Every object carries its identity in the field [oid].
    - The random generator, the wall clock and the allocator of objects are
      an explicit [World] threaded through the code that uses them.
    - Exceptions are results [Raise e]; their messages are not modelled. *)

From Stdlib Require Import ZArith Ascii String DecimalString SpecFloat.
From stdpp Require Import base tactics option list sorting.

Local Open Scope Z_scope.

(** ** Exceptions *)

Inductive exn : Type :=
  | TimeghostCreationError
  | TimeghostValidationError
  | IndexError
  | UnboundLocalError.

Inductive result (A : Type) : Type :=
  | Ok (a : A)
  | Raise (e : exn).
Arguments Ok {A} a.
Arguments Raise {A} e.

(** ** Module constants *)

Definition SECONDS_PER_YEAR : Z := 31536000.
Definition NUM_TRIES : nat := 100.

(** [ALLOWED = set(ascii_letters + digits + "-")], kept as the string of its
    members; [c in ALLOWED] is [str_mem c ALLOWED]. *)
Definition ascii_letters : string :=
  "abcdefghijklmnopqrstuvwxyzABCDEFGHIJKLMNOPQRSTUVWXYZ".
Definition digits : string := "0123456789".
Definition ALLOWED : string := String.append ascii_letters (String.append digits "-").

Definition NOW_MARKER : string := "now".

(** ** Strings *)

Fixpoint str_mem (c : ascii) (s : string) : bool :=
  match s with
  | EmptyString => false
  | String d s' => if Ascii.eqb c d then true else str_mem c s'
  end.

(** [str.lower] on one character: the letters A-Z and the capital letters of
    the Latin-1 block (U+00C0-U+00DE without the multiplication sign U+00D7)
    move up by 32; every other character below 256 is its own lowercase. *)
Definition char_lower (c : ascii) : ascii :=
  let n := nat_of_ascii c in
  if ((65 <=? n) && (n <=? 90))%nat then ascii_of_nat (n + 32)
  else if ((192 <=? n) && (n <=? 222) && negb (n =? 215))%nat
       then ascii_of_nat (n + 32)
       else c.

Fixpoint str_lower (s : string) : string :=
  match s with
  | EmptyString => EmptyString
  | String c s' => String (char_lower c) (str_lower s')
  end.

(** [s.replace(a, b)] for one-character [a] and [b]. *)
Fixpoint str_replace (a b : ascii) (s : string) : string :=
  match s with
  | EmptyString => EmptyString
  | String c s' => String (if Ascii.eqb c a then b else c) (str_replace a b s')
  end.

(** ["".join([c for c in s if p c])] *)
Fixpoint str_filter (p : ascii -> bool) (s : string) : string :=
  match s with
  | EmptyString => EmptyString
  | String c s' => if p c then String c (str_filter p s') else str_filter p s'
  end.

(** [s[:n]] *)
Fixpoint str_take (n : nat) (s : string) : string :=
  match n, s with
  | S n', String c s' => String c (str_take n' s')
  | _, _ => EmptyString
  end.

Fixpoint str_all (p : ascii -> bool) (s : string) : bool :=
  match s with
  | EmptyString => true
  | String c s' => p c && str_all p s'
  end.

(** ** Event *)

Definition _make_url (description : string) : string :=
  let desc := str_replace " " "-" (str_lower description) in
  let url := str_filter (fun c => str_mem c ALLOWED) desc in
  str_take 40 url.

Record Event : Type := mkEvent {
  oid : nat;
  description : string;
  date : Z;
  url : string
}.

(** [Event.__init__] for the object with identity [o]. *)
Definition Event_init (o : nat) (description : string) (date : Z) : Event :=
  {| oid := o; description := description; date := date;
     url := _make_url description |}.

(** [Event.__lt__] *)
Definition Event_lt (self other : Event) : bool := date self <? date other.

(** [a > b] on events: [Event] has no [__gt__], Python falls back on the
    reflected [b.__lt__(a)]. *)
Definition Event_gt (self other : Event) : bool := Event_lt other self.

(** [Event.__sub__]: a timedelta, in microseconds. *)
Definition Event_sub (self other : Event) : Z := date self - date other.

(** [Event.__repr__] *)
Definition Event_repr (self : Event) : string := description self.

(** [a is b] *)
Definition Event_is (a b : Event) : bool := Nat.eqb (oid a) (oid b).

(** ** Timeghost *)

Record Timeghost : Type := mkTimeghost {
  first : Event;
  middle : Event;
  last : Event;
  tries : nat
}.

Definition first_gap (self : Timeghost) : Z := Event_sub (middle self) (first self).
Definition last_gap (self : Timeghost) : Z := Event_sub (last self) (middle self).

Definition is_valid (self : Timeghost) : bool :=
  let is_right_order :=
    Event_lt (first self) (middle self) && Event_lt (middle self) (last self) in
  let is_right_closeness := first_gap self <? last_gap self in
  is_right_order && is_right_closeness.

(** [Timeghost.__init__]: the object, or the exception the constructor
    raises. *)
Definition Timeghost_init (first middle last : Event) (check : bool)
  : result Timeghost :=
  let self := {| first := first; middle := middle; last := last; tries := 1 |} in
  if check then
    if negb (is_valid self) then Raise TimeghostValidationError else Ok self
  else Ok self.

Definition set_tries (self : Timeghost) (n : nat) : Timeghost :=
  {| first := first self; middle := middle self; last := last self; tries := n |}.

(** ** Floats

    Python's [float] is binary64.  [int / int] is the correctly rounded
    quotient of the two integers, whatever their size; [float / int] first
    converts the integer, then divides in binary64. *)

Definition float : Type := spec_float.

Definition float_of_int (n : Z) : float := binary_normalize 53 1024 n 0 false.

(** [a / b] for integers [a] and [b > 0]. *)
Definition int_truediv (a : Z) (b : positive) : float :=
  match a with
  | Z0 => S754_zero false
  | _ =>
    let '(q, e, l) := SFdiv_core_binary 53 1024 (Z.abs a) 0 (Zpos b) 0 in
    binary_round_aux 53 1024 (a <? 0) q e l
  end.

Definition float_div (x y : float) : float := SFdiv 53 1024 x y.

(** [timedelta.total_seconds()]: the microseconds divided by [10**6]. *)
Definition total_seconds (td : Z) : float := int_truediv td 1000000.

Definition first_gap_years (self : Timeghost) : float :=
  float_div (total_seconds (first_gap self)) (float_of_int SECONDS_PER_YEAR).

Definition last_gap_years (self : Timeghost) : float :=
  float_div (total_seconds (last_gap self)) (float_of_int SECONDS_PER_YEAR).

(** Decimal digits of a natural number, and the same padded with zeros on
    the left up to a width. *)
Definition dec (n : Z) : string := NilZero.string_of_uint (N.to_uint (Z.to_N n)).

Fixpoint zeros (n : nat) : string :=
  match n with
  | O => EmptyString
  | S n' => String "0" (zeros n')
  end.

Definition dec_pad (width : nat) (n : Z) : string :=
  let s := dec n in
  String.append (zeros (width - String.length s)) s.

(** The integer nearest to [num / den], ties to even ([den > 0]). *)
Definition round_half_even (num den : Z) : Z :=
  let q := num / den in
  let r := num mod den in
  match 2 * r ?= den with
  | Lt => q
  | Gt => q + 1
  | Eq => if Z.even q then q else q + 1
  end.

(** The digits of [|x| * 10^precision] rounded to an integer, for finite [x]:
    float formatting rounds the exact binary value, ties to even. *)
Definition scaled_digits (m : positive) (e : Z) (precision : nat) : Z :=
  let p10 := 10 ^ Z.of_nat precision in
  if 0 <=? e then Zpos m * 2 ^ e * p10
  else round_half_even (Zpos m * p10) (2 ^ (- e)).

Definition fixed_point (sign : bool) (n : Z) (precision : nat) : string :=
  let p10 := 10 ^ Z.of_nat precision in
  String.append (if sign then "-" else "")
    (String.append (dec (n / p10))
       (match precision with
        | O => EmptyString
        | S _ => String.append "." (dec_pad precision (n mod p10))
        end)).

(** [f"{x:.{precision}f}"] *)
Definition format_f (x : float) (precision : nat) : string :=
  match x with
  | S754_nan => "nan"
  | S754_infinity s => if s then "-inf" else "inf"
  | S754_zero s => fixed_point s 0 precision
  | S754_finite s m e => fixed_point s (scaled_digits m e precision) precision
  end.

(** The loop of [verbose_factoid],
    [while f"{first_gap_years:.{p}f}" == f"{last_gap_years:.{p}f}": p += 1],
    run for at most [fuel] evaluations of its condition; [None] when the
    condition still holds after the last of them. *)
Fixpoint precision_search (fuel : nat) (self : Timeghost) (precision : nat)
  : option nat :=
  match fuel with
  | O => None
  | S fuel' =>
    if String.eqb (format_f (first_gap_years self) precision)
                  (format_f (last_gap_years self) precision)
    then precision_search fuel' self (S precision)
    else Some precision
  end.

(** ** The world: random generator, wall clock, allocator *)

Record World : Type := mkWorld {
  rand : nat -> nat;      (* the successive raw draws of the generator *)
  rand_pos : nat;         (* draws consumed so far *)
  clock : nat -> Z;       (* the successive readings of the wall clock *)
  clock_pos : nat;        (* readings consumed so far *)
  next_oid : nat          (* identity of the next object *)
}.

(** [random._randbelow(n)], [n > 0]. *)
Definition randbelow (n : nat) (w : World) : nat * World :=
  (rand w (rand_pos w) mod n,
   {| rand := rand w; rand_pos := S (rand_pos w);
      clock := clock w; clock_pos := clock_pos w; next_oid := next_oid w |})%nat.

(** [dt.datetime.now(tz.tzlocal())] *)
Definition datetime_now (w : World) : Z * World :=
  (clock w (clock_pos w),
   {| rand := rand w; rand_pos := rand_pos w;
      clock := clock w; clock_pos := S (clock_pos w); next_oid := next_oid w |}).

(** [Event.now()]: reads the clock and allocates the event. *)
Definition Event_now (w : World) : Event * World :=
  let '(t, w1) := datetime_now w in
  (Event_init (next_oid w1) NOW_MARKER t,
   {| rand := rand w1; rand_pos := rand_pos w1;
      clock := clock w1; clock_pos := clock_pos w1; next_oid := S (next_oid w1) |}).

(** [random.choice(seq)]: [IndexError] on an empty sequence. *)
Definition choice {A : Type} (seq : list A) (w : World) : result A * World :=
  match seq with
  | [] => (Raise IndexError, w)
  | _ =>
    let '(j, w') := randbelow (length seq) w in
    match seq !! j with
    | Some x => (Ok x, w')
    | None => (Raise IndexError, w')
    end
  end.

(** [x[i], x[j] = x[j], x[i]] *)
Definition swap {A : Type} (x : list A) (i j : nat) : list A :=
  match x !! i, x !! j with
  | Some a, Some b => <[j := a]> (<[i := b]> x)
  | _, _ => x
  end.

(** [random.shuffle(x)]:
    [for i in reversed(range(1, len(x))): j = randbelow(i + 1); swap]. *)
Fixpoint shuffle_from {A : Type} (i : nat) (x : list A) (w : World)
  : list A * World :=
  match i with
  | O => (x, w)
  | S i' =>
    let '(j, w') := randbelow (S i) w in
    shuffle_from i' (swap x i j) w'
  end.

Definition shuffle {A : Type} (x : list A) (w : World) : list A * World :=
  shuffle_from (length x - 1) x w.

(** [events.sort()]: the stable sort by [Event.__lt__]. *)
Fixpoint insert_sorted (e : Event) (l : list Event) : list Event :=
  match l with
  | [] => [e]
  | y :: l' => if Event_lt y e then y :: insert_sorted e l' else e :: l
  end.

Definition sort (events : list Event) : list Event := foldr insert_sorted [] events.

(** [middle in events] and [events.remove(middle)], by identity. *)
Definition list_contains (x : Event) (events : list Event) : bool :=
  existsb (Event_is x) events.

Fixpoint list_remove (x : Event) (events : list Event) : list Event :=
  match events with
  | [] => []
  | e :: l => if Event_is e x then l else e :: list_remove x l
  end.

(** ** Rendering *)

Section Rendering.

(** [datetime.strftime("%-d %B, %Y")], the formatting of the C library. *)
Variable strftime : Z -> string.

Local Open Scope string_scope.

(** [Event.datestr] *)
Definition datestr (self : Event) : string := strftime (date self).

Definition factoid (self : Timeghost) : string :=
  let last :=
    if String.eqb (description (last self)) NOW_MARKER then "today"
    else "the " ++ Event_repr (last self) in
  "The " ++ Event_repr (middle self) ++ " is closer to the "
    ++ Event_repr (first self) ++ " than " ++ last ++ ".".

(** [verbose_factoid], its loop run with [fuel]: [None] when the loop has
    not ended by then. *)
Definition verbose_factoid (fuel : nat) (self : Timeghost) (w : World)
  : option string * World :=
  let '(last, last_date, w1) :=
    if String.eqb (description (last self)) NOW_MARKER then
      let '(t, w') := datetime_now w in ("today", strftime t, w')
    else ("the " ++ Event_repr (last self), datestr (last self), w) in
  match precision_search fuel self 0 with
  | None => (None, w1)
  | Some precision =>
    (Some ("The " ++ Event_repr (middle self) ++ " (" ++ datestr (middle self) ++ ") "
           ++ "is closer (" ++ format_f (first_gap_years self) precision ++ " years) to "
           ++ "the " ++ Event_repr (first self) ++ " (" ++ datestr (first self) ++ ") ("
           ++ format_f (last_gap_years self) precision ++ " years) than "
           ++ last ++ " (" ++ last_date ++ ") "), w1)
  end.

End Rendering.

(** ** Selector *)

(** [_event_before]: a random event earlier than [middle]. *)
Definition _event_before (middle : Event) (events : list Event) (w : World)
  : result Event * World :=
  let befores := filter (fun e => Is_true (Event_lt e middle)) events in
  choice befores w.

(** The [for] loop of [_make]: candidates that [invalid_event_check] flags
    are skipped, the first one whose triple the constructor accepts is
    returned, and the end of the list raises. *)
Fixpoint _make_scan (invalid_event_check : Event -> bool)
    (tg_events : Event -> Event * Event * Event) (events : list Event)
  : result Timeghost :=
  match events with
  | [] => Raise TimeghostCreationError
  | event :: rest =>
    if invalid_event_check event then _make_scan invalid_event_check tg_events rest
    else
      let '(f, m, l) := tg_events event in
      match Timeghost_init f m l true with
      | Ok tg => Ok tg
      | Raise TimeghostValidationError =>
        _make_scan invalid_event_check tg_events rest
      | Raise e => Raise e
      end
  end.

Definition _make (events : list Event) (first middle last : option Event)
  : result Timeghost :=
  match first, middle, last with
  | None, Some middle, Some last =>          (* find_first_mode *)
    _make_scan (fun f => Event_gt f middle) (fun f => (f, middle, last)) events
  | Some first, Some middle, None =>         (* find_last_mode *)
    _make_scan (fun l => Event_lt l middle) (fun l => (first, middle, l)) events
  | _, _, _ => Raise TimeghostCreationError
  end.

(** The body of the [try] in [make]. *)
Definition make_try (events : list Event) (middle : Event) (is_now : bool)
    (w : World) : result Timeghost * World :=
  if is_now then
    let '(last, w1) := Event_now w in
    (_make events None (Some middle) (Some last), w1)
  else
    let '(r, w1) := _event_before middle events w in
    match r with
    | Ok first => (_make events (Some first) (Some middle) None, w1)
    | Raise e => (Raise e, w1)
    end.

(** The loop [for i in range(NUM_TRIES)] of [make] with [todo] iterations
    left, followed by the final [return timeghost].  [timeghost] is the local
    variable of that name, [None] while it is unbound.  The result carries
    the final contents of the list [events], which the code updates in
    place. *)
Fixpoint make_loop (todo i : nat) (events : list Event) (middle : option Event)
    (is_now : bool) (timeghost : option Timeghost) (w : World)
  : result Timeghost * list Event * World :=
  match todo with
  | O =>
    (match timeghost with Some tg => Ok tg | None => Raise UnboundLocalError end,
     events, w)
  | S todo' =>
    let '(drawn, w1) :=
      match middle with
      | None => choice events w
      | Some m => (Ok m, w)
      end in
    match drawn with
    | Raise e => (Raise e, events, w1)
    | Ok m =>
      let events1 :=
        if list_contains m events then list_remove m events else events in
      let '(r, w2) := make_try events1 m is_now w1 in
      match r with
      | Ok tg => (Ok (set_tries tg (i + 1)), events1, w2)
      | Raise TimeghostCreationError =>
        make_loop todo' (S i) events1 (Some m) is_now timeghost w2
      | Raise e => (Raise e, events1, w2)
      end
    end
  end.

Definition make (events : list Event) (middle : option Event)
    (is_now is_random : bool) (w : World)
  : result Timeghost * list Event * World :=
  let '(events0, w0) := if is_random then shuffle events w else (sort events, w) in
  make_loop NUM_TRIES 0 events0 middle is_now None w0.

(** ** Predicates used in the statements *)

(** The characters of [[a-zA-Z0-9-]], by code point. *)
Definition is_slug_char (c : ascii) : bool :=
  let n := nat_of_ascii c in
  ((97 <=? n) && (n <=? 122) || (65 <=? n) && (n <=? 90)
   || (48 <=? n) && (n <=? 57) || (n =? 45))%nat.

(** The slug as the specification words it, one character at a time: an
    upper-case letter gives its lower-case letter, a space gives a hyphen, a
    lower-case letter, a digit or a hyphen gives itself, and every other
    character gives nothing. *)
Definition slug_char (c : ascii) : option ascii :=
  let n := nat_of_ascii c in
  if ((65 <=? n) && (n <=? 90))%nat then Some (ascii_of_nat (n + 32))
  else if (n =? 32)%nat then Some "-"%char
  else if ((97 <=? n) && (n <=? 122) || (48 <=? n) && (n <=? 57) || (n =? 45))%nat
       then Some c
       else None.

Fixpoint slug_chars (s : string) : string :=
  match s with
  | EmptyString => EmptyString
  | String c s' =>
    match slug_char c with
    | Some c' => String c' (slug_chars s')
    | None => slug_chars s'
    end
  end.

(** The characters of [[a-z0-9-]]: no upper-case letter, no space. *)
Definition is_lower_slug_char (c : ascii) : bool :=
  let n := nat_of_ascii c in
  ((97 <=? n) && (n <=? 122) || (48 <=? n) && (n <=? 57) || (n =? 45))%nat.

(** A character that [_make_url] keeps and leaves as it is. *)
Definition slug_stable (c : ascii) : bool :=
  str_mem c ALLOWED && Ascii.eqb (char_lower c) c && negb (Ascii.eqb c " ").


(** The guarded removal of [make]:
    [if middle in events: events.remove(middle)]. *)
Definition discard (m : Event) (events : list Event) : list Event :=
  if list_contains m events then list_remove m events else events.

(** What a caller of [make] observes: the value returned or the exception
    raised, and the contents of its list afterwards. *)
Definition observed (r : result Timeghost * list Event * World)
  : result Timeghost * list Event := r.1.

(** Two worlds with the same clock and allocator; two worlds with the same
    random generator. *)
Definition same_clock (w1 w2 : World) : Prop :=
  clock w1 = clock w2 /\ clock_pos w1 = clock_pos w2 /\ next_oid w1 = next_oid w2.

Definition same_rand (w1 w2 : World) : Prop :=
  rand w1 = rand w2 /\ rand_pos w1 = rand_pos w2.

(** ** Concrete events and worlds

    Dates are microseconds from 1970-01-01T00:00:00Z. *)

Definition ev_independence : Event :=       (* 1776-07-04 *)
  Event_init 1 "Declaration of Independence" (-6106060800000000).
Definition ev_moon : Event :=               (* 1969-07-20 *)
  Event_init 2 "Moon landing" (-14256000000000).
Definition ev_saigon : Event :=             (* 1975-04-30 *)
  Event_init 3 "Fall of Saigon" 168048000000000.
Definition ev_wall : Event :=               (* 1989-11-09 *)
  Event_init 4 "Fall of the Berlin Wall" 626572800000000.
Definition ev_titanic : Event :=            (* 1997-12-19 *)
  Event_init 5 "Release of Titanic" 882489600000000.
Definition ev_blackhole : Event :=          (* 2019-04-10 *)
  Event_init 6 "First image of a black hole" 1554854400000000.

(** An event labelled ["now"] that [Event.now] did not make. *)
Definition ev_labelled_now : Event :=       (* 2019-04-10 *)
  Event_init 7 "now" 1554854400000000.

(** Three events whose two gaps differ by one microsecond. *)
Definition ev_y1000 : Event :=              (* 1000-01-01T00:00:00Z *)
  Event_init 8 "Year 1000" (-30610224000000000).
Definition ev_y1513 : Event :=              (* 1513-01-02T00:00:00Z *)
  Event_init 9 "Year 1513" (-14421456000000000).
Definition ev_y2026 : Event :=              (* 2026-01-02T00:00:00.000001Z *)
  Event_init 10 "Year 2026" 1767312000000001.

Definition tg_microsecond : Timeghost :=
  mkTimeghost ev_y1000 ev_y1513 ev_y2026 1.

(** A world whose generator always draws [draw] and whose clock stands at
    2026-11-04T12:00:00Z. *)
Definition world_drawing (draw : nat) : World :=
  {| rand := fun _ => draw; rand_pos := 0;
     clock := fun _ => 1793793600000000; clock_pos := 0; next_oid := 100 |}.

(** A stand-in for the C library's date formatting: the day number. *)
Definition day_number (t : Z) : string :=
  String.append "day " (dec (t / 86400000000 + 719163)).

(** ** Tactics *)

(** Case analysis over the 256 characters. *)
Ltac each_ascii c :=
  destruct c as [[] [] [] [] [] [] [] []]; vm_compute; try reflexivity; try discriminate.


(** ** The remaining properties of [Timeghost] *)

Definition permalink_url (self : Timeghost) : string :=
  String.append "/" (String.append (url (first self))
    (String.append "/" (String.append (url (middle self))
      (String.append "/" (url (last self)))))).

(** The ends of the range of [datetime], as wall-clock readings:
    0001-01-01T00:00:00 and 9999-12-31T23:59:59.999999. *)
Definition datetime_min : Z := -62135596800000000.
Definition datetime_max : Z := 253402300799999999.

(** A datetime, or the [OverflowError] ("date value out of range") of
    datetime arithmetic. *)
Inductive datetime_sum : Type :=
  | Datetime (t : Z)
  | OverflowError.

(** [t + td] for a datetime [t] and a timedelta [td].  The sum is taken on
    the wall-clock reading of [t], which is [t] moved by its UTC offset
    [utcoffset]; the result keeps that offset, and the sum raises when the
    reading leaves the range of [datetime]. *)
Definition datetime_add (utcoffset t td : Z) : datetime_sum :=
  let wall := t + utcoffset + td in
  if (datetime_min <=? wall) && (wall <=? datetime_max) then Datetime (t + td)
  else OverflowError.

(** [start_of_haunting], with the UTC offset of [middle.date]. *)
Definition start_of_haunting (utcoffset : Z) (self : Timeghost) : datetime_sum :=
  datetime_add utcoffset (date (middle self)) (first_gap self).

(** ** Loading events

    The catalogue file [static/events_timeghost.csv] is not part of the
    sources.  Its records are a parameter [rows]: for each record the column
    [description] and the datetime that [parse] makes of the column [date].
    The date texts of the catalogue are taken to be well formed and complete
    (year, month and day given), so that [parse] returns and its result does
    not depend on its default; [parse] still reads the clock once, to build
    that default. *)

(** [Event(description, date)]: allocates the object. *)
Definition Event_new (description : string) (date : Z) (w : World) : Event * World :=
  (Event_init (next_oid w) description date,
   {| rand := rand w; rand_pos := rand_pos w;
      clock := clock w; clock_pos := clock_pos w; next_oid := S (next_oid w) |}).

(** [load_events]: one event per record, in the order of the file; for each
    record [parse] reads the clock, then the event is made. *)
Fixpoint load_events (rows : list (string * Z)) (w : World) : list Event * World :=
  match rows with
  | [] => ([], w)
  | (description, date) :: rest =>
    let '(_, w0) := datetime_now w in         (* the default of [parse] *)
    let '(event, w1) := Event_new description date w0 in
    let '(events, w2) := load_events rest w1 in
    (event :: events, w2)
  end.

(** The inner loop of [load_specific_events]: the first event of
    [all_events] whose slug is [u], if any ([break] at the first match). *)
Fixpoint find_url (u : string) (all_events : list Event) : option Event :=
  match all_events with
  | [] => None
  | event :: rest => if String.eqb (url event) u then Some event else find_url u rest
  end.

(** The outer loop of [load_specific_events]: a fresh [Event.now()] for the
    marker, the first match otherwise, nothing when there is no match. *)
Fixpoint load_specific_loop (urls : list string) (all_events : list Event) (w : World)
  : list Event * World :=
  match urls with
  | [] => ([], w)
  | u :: rest =>
    if String.eqb u NOW_MARKER then
      let '(event, w1) := Event_now w in
      let '(events, w2) := load_specific_loop rest all_events w1 in
      (event :: events, w2)
    else
      match find_url u all_events with
      | Some event =>
        let '(events, w1) := load_specific_loop rest all_events w in
        (event :: events, w1)
      | None => load_specific_loop rest all_events w
      end
  end.

Definition load_specific_events (rows : list (string * Z)) (urls : list string)
    (w : World) : list Event * World :=
  let '(all_events, w1) := load_events rows w in
  load_specific_loop urls all_events w1.

(** What [load_events_and_make_timeghost] returns: the Timeghost, or the
    string [f"Can't make timeghost {e}"], kept as the exception [e] it is
    made from. *)
Inductive made : Type :=
  | MadeTimeghost (tg : Timeghost)
  | CantMake (e : exn).

Definition load_events_and_make_timeghost (rows : list (string * Z))
    (is_random : bool) (middle : option Event) (is_now : bool) (w : World)
  : result made * World :=
  let '(events, w1) := load_events rows w in
  let '(r, _, w2) := make events middle is_now is_random w1 in
  match r with
  | Ok tg => (Ok (MadeTimeghost tg), w2)
  | Raise TimeghostCreationError => (Ok (CantMake TimeghostCreationError), w2)
  | Raise e => (Raise e, w2)
  end.

(** ** Views

    Each view is modelled up to the value it hands to [render_template] as
    [timeghost]. *)

(** The four views [/worst/<event_url>], [/random/<event_url>],
    [/arbitrary/worst/<event_url>] and [/arbitrary/random/<event_url>]:
    [event = load_specific_events([event_url])], then
    [load_events_and_make_timeghost(..., middle=event[0], ...)]. *)
Definition display_with_middle (rows : list (string * Z)) (is_random is_now : bool)
    (event_url : string) (w : World) : result made * World :=
  let '(event, w1) := load_specific_events rows [event_url] w in
  match event with
  | [] => (Raise IndexError, w1)                               (* event[0] *)
  | event_0 :: _ =>
    load_events_and_make_timeghost rows is_random (Some event_0) is_now w1
  end.

Definition display_timeghost_worst rows event_url w :=
  display_with_middle rows false true event_url w.
Definition display_timeghost_random rows event_url w :=
  display_with_middle rows true true event_url w.
Definition display_timeghost_arbitrary_worst rows event_url w :=
  display_with_middle rows false false event_url w.
Definition display_timeghost_arbitrary_random rows event_url w :=
  display_with_middle rows true false event_url w.

(** [/<first_url>/<middle_url>/<last_url>] *)
Definition display_timeghost_arbitrary_fully_specified (rows : list (string * Z))
    (first_url middle_url last_url : string) (w : World)
  : result Timeghost * World :=
  let '(events, w1) := load_specific_events rows [first_url; middle_url; last_url] w in
  match events with
  | e0 :: e1 :: e2 :: _ => (Timeghost_init e0 e1 e2 false, w1)
  | _ => (Raise IndexError, w1)          (* events[0], events[1] or events[2] *)
  end.

(** ** Predicates used in the further statements *)

(** Objects allocated before the allocator reached [bound]. *)
Definition allocated_below (events : list Event) (bound : nat) : Prop :=
  Forall (fun e => (oid e < bound)%nat) events.

(** A slug that the catalogue [rows] resolves: the marker, or the slug of a
    record. *)
Definition resolvable (rows : list (string * Z)) (u : string) : bool :=
  String.eqb u NOW_MARKER
  || existsb (fun row => String.eqb (_make_url row.1) u) rows.

(** A catalogue whose records are told apart by their slugs. *)
Definition slugs_unique (rows : list (string * Z)) : Prop :=
  NoDup ((fun row => _make_url row.1) <$> rows).

(** A small catalogue. *)
Definition rows_catalogue : list (string * Z) :=
  [("Fall of Saigon"%string, 168048000000000);
   ("Moon landing"%string, -14256000000000);
   ("Fall of the Berlin Wall"%string, 626572800000000)].

(** A triple whose gaps are 20.3 and 20.4 years. *)
Definition tg_tenths : Timeghost :=
  mkTimeghost ev_moon ev_wall (Event_init 12 "Twenty years on" 1269907200000000) 1.
(** * Properties

    ** The slug *)

Lemma ALLOWED_slug_char (c : ascii) : str_mem c ALLOWED = is_slug_char c.
Proof. each_ascii c. Qed.

Lemma kept_char_stable (c : ascii) :
  let c' := if Ascii.eqb (char_lower c) " " then "-"%char else char_lower c in
  str_mem c' ALLOWED = true -> slug_stable c' = true.
Proof. each_ascii c; intros H; exact H. Qed.

Lemma str_take_length (n : nat) (s : string) : (String.length (str_take n s) <= n)%nat.
Proof.
  revert s; induction n as [|n IH]; intros [|c s]; simpl; try lia.
  specialize (IH s); lia.
Qed.

Lemma str_take_all (p : ascii -> bool) (n : nat) (s : string) :
  str_all p s = true -> str_all p (str_take n s) = true.
Proof.
  revert s; induction n as [|n IH]; intros [|c s]; simpl; auto.
  intros [Hc Hs]%andb_prop. rewrite Hc; simpl; auto.
Qed.

Lemma str_take_short (n : nat) (s : string) :
  (String.length s <= n)%nat -> str_take n s = s.
Proof.
  revert s; induction n as [|n IH]; intros [|c s]; simpl; try reflexivity; try lia.
  intros H. f_equal. apply IH. lia.
Qed.

Lemma str_filter_all (p : ascii -> bool) (s : string) :
  str_all p (str_filter p s) = true.
Proof.
  induction s as [|c s IH]; simpl; [reflexivity|].
  destruct (p c) eqn:E; simpl; [rewrite E|]; auto.
Qed.

Lemma str_all_impl (p q : ascii -> bool) (s : string) :
  (forall c, p c = true -> q c = true) -> str_all p s = true -> str_all q s = true.
Proof.
  intros Hpq; induction s as [|c s IH]; simpl; [reflexivity|].
  intros [Hc Hs]%andb_prop. rewrite (Hpq c Hc); simpl; auto.
Qed.

Lemma kept_stable (s : string) :
  str_all slug_stable
    (str_filter (fun c => str_mem c ALLOWED) (str_replace " " "-" (str_lower s))) = true.
Proof.
  induction s as [|c s IH]; [reflexivity|].
  cbn [str_lower str_replace str_filter].
  pose proof (kept_char_stable c) as Hc; cbv zeta in Hc.
  destruct (str_mem _ ALLOWED) eqn:E; [|exact IH].
  cbn [str_all]. rewrite (Hc eq_refl). exact IH.
Qed.

Lemma stable_fixed (s : string) :
  str_all slug_stable s = true ->
  str_filter (fun c => str_mem c ALLOWED) (str_replace " " "-" (str_lower s)) = s.
Proof.
  induction s as [|c s IH]; [reflexivity|].
  cbn [str_lower str_replace str_filter str_all].
  intros [Hc Hs]%andb_prop. unfold slug_stable in Hc.
  apply andb_prop in Hc as [[Hmem Hlow]%andb_prop Hsp].
  apply Ascii.eqb_eq in Hlow. rewrite Hlow.
  apply negb_true_iff in Hsp. rewrite Hsp, Hmem, (IH Hs). reflexivity.
Qed.

Lemma slug_char_kept (c : ascii) :
  let c' := if Ascii.eqb (char_lower c) " " then "-"%char else char_lower c in
  (if str_mem c' ALLOWED then Some c' else None) = slug_char c.
Proof. each_ascii c. Qed.

Lemma kept_slug_chars (s : string) :
  str_filter (fun c => str_mem c ALLOWED) (str_replace " " "-" (str_lower s))
  = slug_chars s.
Proof.
  induction s as [|c s IH]; [reflexivity|].
  cbn [str_lower str_replace str_filter slug_chars].
  pose proof (slug_char_kept c) as Hc; cbv zeta in Hc. rewrite <- Hc.
  destruct (str_mem _ ALLOWED); rewrite IH; reflexivity.
Qed.

Lemma stable_lower (c : ascii) : slug_stable c = true -> is_lower_slug_char c = true.
Proof. each_ascii c. Qed.

(** C8: [_make_url] is the composition lower, spaces to hyphens, filter on
    [ALLOWED], first 40 characters; character by character, an upper-case
    letter of the description gives its lower-case letter, a space a hyphen,
    a lower-case letter, a digit or a hyphen itself, and any other character
    nothing, the first 40 of the results being kept; the slug has at most 40
    characters, all of them in [[a-zA-Z0-9-]] and indeed in [[a-z0-9-]]; the
    slug stored in an event depends on the description alone; and the slug
    of a slug is that slug. *)
Theorem make_url_slug (description : string) :
  _make_url description
    = str_take 40 (str_filter (fun c => str_mem c ALLOWED)
                     (str_replace " " "-" (str_lower description)))
  /\ _make_url description = str_take 40 (slug_chars description)
  /\ (String.length (_make_url description) <= 40)%nat
  /\ str_all is_slug_char (_make_url description) = true
  /\ str_all is_lower_slug_char (_make_url description) = true
  /\ (forall o1 o2 t1 t2,
        url (Event_init o1 description t1) = url (Event_init o2 description t2))
  /\ _make_url (_make_url description) = _make_url description
  /\ _make_url "Fall of Saigon" = "fall-of-saigon"%string
  /\ _make_url "Release of Titanic (1997), the MOVIE: a rather long description"
     = "release-of-titanic-1997-the-movie-a-rath"%string.
Proof.
  assert (Hst : str_all slug_stable (_make_url description) = true)
    by (apply str_take_all, kept_stable).
  split; [reflexivity|].
  split; [unfold _make_url; rewrite kept_slug_chars; reflexivity|].
  split; [apply str_take_length|].
  split.
  { apply str_take_all.
    apply str_all_impl with (p := fun c => str_mem c ALLOWED).
    - intros c H. rewrite <- ALLOWED_slug_char. exact H.
    - apply str_filter_all. }
  split; [apply (str_all_impl slug_stable); [apply stable_lower | exact Hst]|].
  split; [reflexivity|].
  split.
  { unfold _make_url at 1. rewrite (stable_fixed _ Hst).
    apply str_take_short, str_take_length. }
  split; vm_compute; reflexivity.
Qed.

(** ** The constructor and the validity predicate *)

Lemma is_valid_iff (tg : Timeghost) :
  is_valid tg = true <->
  date (first tg) < date (middle tg) < date (last tg)
  /\ first_gap tg < last_gap tg.
Proof.
  unfold is_valid, Event_lt.
  rewrite !andb_true_iff, !Z.ltb_lt. tauto.
Qed.

Lemma is_valid_false_iff (tg : Timeghost) :
  is_valid tg = false <->
  ~ (date (first tg) < date (middle tg) < date (last tg))
  \/ ~ (first_gap tg < last_gap tg).
Proof.
  rewrite <- not_true_iff_false, is_valid_iff. lia.
Qed.

Lemma Timeghost_init_checked (f m l : Event) :
  Timeghost_init f m l true =
  if is_valid (mkTimeghost f m l 1) then Ok (mkTimeghost f m l 1)
  else Raise TimeghostValidationError.
Proof. unfold Timeghost_init. destruct (is_valid _); reflexivity. Qed.

(** C1: with [check] true the constructor raises the validation error
    exactly when [first < middle < last] fails or [first_gap < last_gap]
    fails, and returns the triple otherwise; with [check] false it returns
    the triple as given, whatever it is; [is_valid] evaluates the same
    two-part predicate on any instance. *)
Theorem Timeghost_init_validation (f m l : Event) :
  (Timeghost_init f m l true = Raise TimeghostValidationError <->
     ~ (date f < date m < date l) \/ ~ (date m - date f < date l - date m))
  /\ (Timeghost_init f m l true = Ok (mkTimeghost f m l 1) <->
     date f < date m < date l /\ date m - date f < date l - date m)
  /\ Timeghost_init f m l false = Ok (mkTimeghost f m l 1)
  /\ (forall n, is_valid (mkTimeghost f m l n) = true <->
        date f < date m < date l /\ date m - date f < date l - date m)
  /\ (forall n, is_valid (mkTimeghost f m l n) = false <->
        ~ (date f < date m < date l) \/ ~ (date m - date f < date l - date m)).
Proof.
  rewrite Timeghost_init_checked.
  pose proof (is_valid_iff (mkTimeghost f m l 1)) as Hv.
  pose proof (is_valid_false_iff (mkTimeghost f m l 1)) as Hn.
  unfold first_gap, last_gap, Event_sub in Hv, Hn; simpl in Hv, Hn.
  split; [|split; [|split; [|split]]].
  - rewrite <- Hn. destruct (is_valid _); split; congruence.
  - rewrite <- Hv. destruct (is_valid _); split; congruence.
  - reflexivity.
  - intros n. apply (is_valid_iff (mkTimeghost f m l n)).
  - intros n. apply (is_valid_false_iff (mkTimeghost f m l n)).
Qed.

(** ** The inner search [_make] *)

(** The scan returns the triple of the first event that is not flagged and
    whose triple validates; every event before it is flagged or fails
    validation; when there is none it raises [TimeghostCreationError]. *)
Lemma _make_scan_spec (inv : Event -> bool) (tge : Event -> Event * Event * Event)
    (events : list Event) :
  let triple e := mkTimeghost (tge e).1.1 (tge e).1.2 (tge e).2 1 in
  let rejected e := inv e = true \/ is_valid (triple e) = false in
  match _make_scan inv tge events with
  | Ok tg =>
    exists pre e post,
      events = pre ++ e :: post /\ Forall rejected pre
      /\ inv e = false /\ is_valid (triple e) = true /\ tg = triple e
  | Raise x => x = TimeghostCreationError /\ Forall rejected events
  end.
Proof.
  intros triple rejected.
  induction events as [|e rest IH]; cbn [_make_scan].
  - split; [reflexivity | constructor].
  - destruct (inv e) eqn:Einv.
    + destruct (_make_scan inv tge rest) as [tg|x].
      * destruct IH as (pre & c & post & -> & Hpre & Hc).
        exists (e :: pre), c, post. split; [reflexivity|].
        split; [constructor; [left; exact Einv | exact Hpre] | exact Hc].
      * destruct IH as [-> Hall]. split; [reflexivity|].
        constructor; [left; exact Einv | exact Hall].
    + destruct (tge e) as [[f m] l] eqn:Etge.
      rewrite Timeghost_init_checked.
      assert (Htr : triple e = mkTimeghost f m l 1)
        by (unfold triple; rewrite Etge; reflexivity).
      destruct (is_valid (mkTimeghost f m l 1)) eqn:Ev.
      * exists [], e, rest. rewrite Htr.
        split; [reflexivity|]. split; [constructor|]. auto.
      * destruct (_make_scan inv tge rest) as [tg|x].
        -- destruct IH as (pre & c & post & -> & Hpre & Hc).
           exists (e :: pre), c, post. split; [reflexivity|].
           split; [constructor; [right; rewrite Htr; exact Ev | exact Hpre] | exact Hc].
        -- destruct IH as [-> Hall]. split; [reflexivity|].
           constructor; [right; rewrite Htr; exact Ev | exact Hall].
Qed.

(** C3: given [first] and [middle], [_make] scans [events] in list order,
    rejects every candidate earlier than [middle], and returns the triple of
    the first candidate for which the constructor validates; given [middle]
    and [last] it does the same with the candidates later than [middle]
    rejected.  When no candidate validates it raises
    [TimeghostCreationError]. *)
Theorem inner_make_first_validating (events : list Event) (f m l : Event) :
  match _make events (Some f) (Some m) None with
  | Ok tg =>
    exists pre c post,
      events = pre ++ c :: post
      /\ Forall (fun x => Event_lt x m = true
                          \/ Timeghost_init f m x true = Raise TimeghostValidationError) pre
      /\ Event_lt c m = false
      /\ Timeghost_init f m c true = Ok tg
      /\ tg = mkTimeghost f m c 1
  | Raise x =>
    x = TimeghostCreationError
    /\ Forall (fun x => Event_lt x m = true
                        \/ Timeghost_init f m x true = Raise TimeghostValidationError) events
  end
  /\
  match _make events None (Some m) (Some l) with
  | Ok tg =>
    exists pre c post,
      events = pre ++ c :: post
      /\ Forall (fun x => Event_lt m x = true
                          \/ Timeghost_init x m l true = Raise TimeghostValidationError) pre
      /\ Event_lt m c = false
      /\ Timeghost_init c m l true = Ok tg
      /\ tg = mkTimeghost c m l 1
  | Raise x =>
    x = TimeghostCreationError
    /\ Forall (fun x => Event_lt m x = true
                        \/ Timeghost_init x m l true = Raise TimeghostValidationError) events
  end.
Proof.
  assert (Hrej : forall (P : Prop) a b c,
     P \/ is_valid (mkTimeghost a b c 1) = false ->
     P \/ Timeghost_init a b c true = Raise TimeghostValidationError).
  { intros P a b c [H|H]; [left; exact H | right].
    rewrite Timeghost_init_checked, H. reflexivity. }
  split; unfold _make, Event_gt.
  - pose proof (_make_scan_spec (fun x => Event_lt x m) (fun x => (f, m, x)) events) as H.
    cbv zeta in H; simpl in H.
    destruct (_make_scan _ _ events) as [tg|x].
    + destruct H as (pre & c & post & -> & Hpre & Hc & Hv & ->).
      exists pre, c, post. repeat split; auto.
      * eapply Forall_impl; [exact Hpre | intros x; apply Hrej].
      * rewrite Timeghost_init_checked, Hv. reflexivity.
    + destruct H as [-> Hall]. split; [reflexivity|].
      eapply Forall_impl; [exact Hall | intros x; apply Hrej].
  - pose proof (_make_scan_spec (fun x => Event_lt m x) (fun x => (x, m, l)) events) as H.
    cbv zeta in H; simpl in H.
    destruct (_make_scan _ _ events) as [tg|x].
    + destruct H as (pre & c & post & -> & Hpre & Hc & Hv & ->).
      exists pre, c, post. repeat split; auto.
      * eapply Forall_impl; [exact Hpre | intros x; apply Hrej].
      * rewrite Timeghost_init_checked, Hv. reflexivity.
    + destruct H as [-> Hall]. split; [reflexivity|].
      eapply Forall_impl; [exact Hall | intros x; apply Hrej].
Qed.

(** ** Sorting, shuffling, removing *)

Lemma insert_sorted_perm (e : Event) (l : list Event) : insert_sorted e l ≡ₚ e :: l.
Proof.
  induction l as [|y l IH]; simpl; [reflexivity|].
  destruct (Event_lt y e); [|reflexivity].
  rewrite IH. apply Permutation_swap.
Qed.

Lemma sort_perm (events : list Event) : sort events ≡ₚ events.
Proof.
  induction events as [|e l IH]; simpl; [reflexivity|].
  rewrite insert_sorted_perm, IH. reflexivity.
Qed.

(** The sorted list is in date order. *)
Lemma insert_sorted_ordered (e : Event) (l : list Event) :
  StronglySorted (fun a b => date a <= date b) l ->
  StronglySorted (fun a b => date a <= date b) (insert_sorted e l).
Proof.
  induction 1 as [|y l Hl IH Hy]; simpl.
  - repeat constructor.
  - unfold Event_lt. destruct (date y <? date e) eqn:E.
    + apply Z.ltb_lt in E. constructor; [exact IH|].
      rewrite insert_sorted_perm. constructor; [lia | exact Hy].
    + apply Z.ltb_ge in E. constructor; [constructor; assumption|].
      constructor; [exact E|].
      eapply Forall_impl; [exact Hy | intros b Hb; simpl in Hb; lia].
Qed.

Lemma sort_ordered (events : list Event) :
  StronglySorted (fun a b => date a <= date b) (sort events).
Proof.
  induction events as [|e l IH]; simpl; [constructor|].
  apply insert_sorted_ordered, IH.
Qed.

Lemma swap_perm {A : Type} (x : list A) (i j : nat) : swap x i j ≡ₚ x.
Proof.
  unfold swap.
  destruct (x !! i) as [a|] eqn:Ei; [|reflexivity].
  destruct (x !! j) as [b|] eqn:Ej; [|reflexivity].
  by apply Permutation_insert_swap.
Qed.

Lemma shuffle_from_perm {A : Type} (i : nat) (x : list A) (w : World) :
  (shuffle_from i x w).1 ≡ₚ x.
Proof.
  revert x w; induction i as [|i IH]; intros x w; simpl; [reflexivity|].
  rewrite IH. apply swap_perm.
Qed.

Lemma shuffle_perm {A : Type} (x : list A) (w : World) : (shuffle x w).1 ≡ₚ x.
Proof. apply shuffle_from_perm. Qed.

(** The list [make] starts its loop with is a rearrangement of its input. *)
Lemma prepared_perm (events : list Event) (is_random : bool) (w : World) :
  (if is_random then shuffle events w else (sort events, w)).1 ≡ₚ events.
Proof. destruct is_random; [apply shuffle_perm | apply sort_perm]. Qed.

Lemma list_remove_Forall (P : Event -> Prop) (x : Event) (l : list Event) :
  Forall P l -> Forall P (list_remove x l).
Proof.
  induction 1 as [|e l He Hl IH]; simpl; [constructor|].
  destruct (Event_is e x); [exact Hl | constructor; assumption].
Qed.

Lemma discard_Forall (P : Event -> Prop) (x : Event) (l : list Event) :
  Forall P l -> Forall P (discard x l).
Proof.
  intros H. unfold discard.
  destruct (list_contains x l); [apply list_remove_Forall|]; exact H.
Qed.

(** ** The selector [make] *)

Lemma make_loop_step (todo i : nat) (events : list Event) (m : Event)
    (is_now : bool) (timeghost : option Timeghost) (w : World) :
  make_loop (S todo) i events (Some m) is_now timeghost w =
  match make_try (discard m events) m is_now w with
  | (Ok tg, w2) => (Ok (set_tries tg (i + 1)), discard m events, w2)
  | (Raise TimeghostCreationError, w2) =>
    make_loop todo (S i) (discard m events) (Some m) is_now timeghost w2
  | (Raise e, w2) => (Raise e, discard m events, w2)
  end.
Proof.
  cbn [make_loop]. fold (discard m events).
  destruct (make_try _ _ _ _) as [[tg|[]] w2]; reflexivity.
Qed.

(** With no middle pinned, the middle is drawn once, at the first attempt,
    and the run goes on as if that event had been pinned. *)
Lemma make_loop_draw (todo i : nat) (events : list Event) (is_now : bool)
    (timeghost : option Timeghost) (w : World) :
  make_loop (S todo) i events None is_now timeghost w =
  match choice events w with
  | (Ok m, w1) => make_loop (S todo) i events (Some m) is_now timeghost w1
  | (Raise e, w1) => (Raise e, events, w1)
  end.
Proof.
  cbn [make_loop]. destruct (choice events w) as [[m|e] w1]; reflexivity.
Qed.

Lemma _make_scan_valid inv tge (events : list Event) (tg : Timeghost) :
  _make_scan inv tge events = Ok tg -> is_valid tg = true /\ tries tg = 1%nat.
Proof.
  intros H. pose proof (_make_scan_spec inv tge events) as S.
  cbv zeta in S. rewrite H in S.
  destruct S as (pre & e & post & _ & _ & _ & Hv & ->). split; [exact Hv | reflexivity].
Qed.

Lemma _make_valid (events : list Event) (f m l : option Event) (tg : Timeghost) :
  _make events f m l = Ok tg -> is_valid tg = true /\ tries tg = 1%nat.
Proof.
  unfold _make. destruct f, m, l; try discriminate; apply _make_scan_valid.
Qed.

Lemma make_try_valid (events : list Event) (m : Event) (is_now : bool)
    (w w' : World) (tg : Timeghost) :
  make_try events m is_now w = (Ok tg, w') -> is_valid tg = true.
Proof.
  unfold make_try. destruct is_now.
  - destruct (Event_now w) as [l w1]. intros H.
    apply (f_equal fst) in H; cbn [fst] in H. by apply _make_valid in H as [? _].
  - destruct (_event_before m events w) as [[f|e] w1]; [|discriminate].
    intros H.
    apply (f_equal fst) in H; cbn [fst] in H. by apply _make_valid in H as [? _].
Qed.

Lemma make_loop_returns (todo i : nat) (events : list Event) (middle : option Event)
    (is_now : bool) (w : World) (tg : Timeghost) :
  (make_loop todo i events middle is_now None w).1.1 = Ok tg ->
  is_valid tg = true /\ (i + 1 <= tries tg <= i + todo)%nat.
Proof.
  revert i events middle w; induction todo as [|todo IH]; intros i events middle w.
  - simpl. discriminate.
  - destruct middle as [m|].
    + rewrite make_loop_step.
      destruct (make_try _ _ _ _) as [[tg'|e] w2] eqn:Etry.
      * simpl. intros [= <-]. split.
        -- apply make_try_valid in Etry. exact Etry.
        -- simpl. lia.
      * destruct e; try (simpl; discriminate).
        intros H. apply IH in H. split; [tauto | lia].
    + rewrite make_loop_draw.
      destruct (choice events w) as [[m|e] w1]; [|simpl; discriminate].
      rewrite make_loop_step.
      destruct (make_try _ _ _ _) as [[tg'|e] w2] eqn:Etry.
      * simpl. intros [= <-]. split.
        -- apply make_try_valid in Etry. exact Etry.
        -- simpl. lia.
      * destruct e; try (simpl; discriminate).
        intros H. apply IH in H. split; [tauto | lia].
Qed.

(** C7: a Timeghost that [make] returns has [tries] between 1 and 100. *)
Theorem make_tries_bounds (events : list Event) (middle : option Event)
    (is_now is_random : bool) (w : World) (tg : Timeghost) :
  (make events middle is_now is_random w).1.1 = Ok tg ->
  (1 <= tries tg <= 100)%nat.
Proof.
  unfold make. destruct (if is_random then _ else _) as [events0 w0].
  intros H. apply make_loop_returns in H. unfold NUM_TRIES in H. lia.
Qed.

Lemma make_tries_bounds_witness :
  (make [ev_saigon; ev_wall; ev_moon] (Some ev_wall) true false
        (world_drawing 0)).1.1
    = Ok (mkTimeghost ev_moon ev_wall (Event_init 100 "now" 1793793600000000) 1)
  /\ (1 <= 1 <= 100)%nat.
Proof.
  split; [vm_compute; reflexivity|].
  apply (make_tries_bounds [ev_saigon; ev_wall; ev_moon] (Some ev_wall)
           true false (world_drawing 0)
           (mkTimeghost ev_moon ev_wall (Event_init 100 "now" 1793793600000000) 1)).
  vm_compute; reflexivity.
Defined.

Lemma _make_raises (events : list Event) (f m l : option Event) (e : exn) :
  _make events f m l = Raise e -> e = TimeghostCreationError.
Proof.
  unfold _make. intros H.
  destruct f as [f|], m as [m|], l as [l|]; try (injection H as <-; reflexivity).
  - pose proof (_make_scan_spec (fun x => Event_lt x m) (fun x => (f, m, x)) events) as S.
    cbv zeta in S. rewrite H in S. tauto.
  - pose proof (_make_scan_spec (fun x => Event_gt x m) (fun x => (x, m, l)) events) as S.
    cbv zeta in S. rewrite H in S. tauto.
Qed.

Lemma choice_raises {A : Type} (seq : list A) (w w' : World) (e : exn) :
  choice seq w = (Raise e, w') -> e = IndexError.
Proof.
  unfold choice. destruct seq as [|a seq]; [intros [= <- _]; reflexivity|].
  destruct (randbelow _ w) as [j w1]. destruct (_ !! j); [discriminate|].
  intros [= <- _]; reflexivity.
Qed.

Lemma make_try_raises (events : list Event) (m : Event) (is_now : bool)
    (w w' : World) (e : exn) :
  make_try events m is_now w = (Raise e, w') ->
  e = TimeghostCreationError \/ (is_now = false /\ e = IndexError).
Proof.
  unfold make_try. destruct is_now.
  - destruct (Event_now w) as [l w1]. intros H.
    apply (f_equal fst) in H; cbn [fst] in H. left. eapply _make_raises, H.
  - unfold _event_before.
    destruct (choice _ w) as [[f|x] w1] eqn:Ech.
    + intros H. apply (f_equal fst) in H; cbn [fst] in H. left. eapply _make_raises, H.
    + intros [= <- _]. right. split; [reflexivity|]. eapply choice_raises, Ech.
Qed.

(** The outcomes of the loop: a valid Timeghost, the [UnboundLocalError] of
    the final [return timeghost], or an [IndexError] of [random.choice]. *)
Lemma make_loop_outcomes (todo i : nat) (events : list Event) (middle : option Event)
    (is_now : bool) (w : World) :
  match (make_loop todo i events middle is_now None w).1.1 with
  | Ok tg => is_valid tg = true
  | Raise e => e = UnboundLocalError \/ e = IndexError
  end.
Proof.
  destruct (make_loop todo i events middle is_now None w).1.1 as [tg|e] eqn:E.
  { apply make_loop_returns in E. tauto. }
  revert i events middle w E; induction todo as [|todo IH]; intros i events middle w.
  - simpl. intros [= <-]. left; reflexivity.
  - assert (Hpinned : forall m w1,
      (make_loop (S todo) i events (Some m) is_now None w1).1.1 = Raise e ->
      e = UnboundLocalError \/ e = IndexError).
    { intros m w1. rewrite make_loop_step.
      destruct (make_try _ _ _ _) as [[tg|x] w2] eqn:Etry; [simpl; discriminate|].
      apply make_try_raises in Etry as [->|[_ ->]].
      - apply IH.
      - simpl. intros [= <-]. right; reflexivity. }
    destruct middle as [m|]; [apply Hpinned|].
    rewrite make_loop_draw.
    destruct (choice events w) as [[m|x] w1] eqn:Ech; [apply Hpinned|].
    simpl. intros [= <-]. right. eapply choice_raises, Ech.
Qed.

(** C2: on the pool of three events with the earliest one pinned as middle
    and [is_now] true, each of the 100 attempts fails and the final
    [return timeghost] raises [UnboundLocalError], the variable never having
    been bound.  On every input, [make] returns a Timeghost whose [is_valid]
    is true, or raises [UnboundLocalError] or [IndexError]: it never returns
    an invalid Timeghost. *)
Theorem make_exhausted_unbound :
  (make [ev_independence; ev_moon; ev_wall] (Some ev_independence) true false
        (world_drawing 0)).1.1 = Raise UnboundLocalError
  /\ forall events middle is_now is_random w,
       match (make events middle is_now is_random w).1.1 with
       | Ok tg => is_valid tg = true
       | Raise e => e = UnboundLocalError \/ e = IndexError
       end.
Proof.
  split; [vm_compute; reflexivity|].
  intros events middle is_now is_random w.
  unfold make. destruct (if is_random then _ else _) as [events0 w0].
  apply make_loop_outcomes.
Qed.

Lemma filter_before_nil (m : Event) (events : list Event) :
  Forall (fun e => Event_lt e m = false) events ->
  filter (fun e => Is_true (Event_lt e m)) events = [].
Proof.
  induction 1 as [|e l He Hl IH]; [reflexivity|].
  rewrite filter_cons_False; [exact IH|].
  rewrite He. exact id.
Qed.

(** C4: when no event of the pool is earlier than the pinned middle and
    [is_now] is false, [make] ends at its first attempt with the
    [IndexError] of [random.choice] on the empty list of earlier events,
    which the [except TimeghostCreationError] clause does not catch. *)
Theorem make_no_earlier_event (events : list Event) (m : Event)
    (is_random : bool) (w : World) :
  Forall (fun e => Event_lt e m = false) events ->
  (make events (Some m) false is_random w).1.1 = Raise IndexError.
Proof.
  intros Hall. unfold make.
  pose proof (prepared_perm events is_random w) as Hperm.
  destruct (if is_random then _ else _) as [events0 w0]; simpl in Hperm.
  rewrite <- Hperm in Hall.
  unfold NUM_TRIES. rewrite make_loop_step.
  unfold make_try, _event_before.
  rewrite (filter_before_nil m (discard m events0)) by (apply discard_Forall, Hall).
  reflexivity.
Qed.

Lemma make_no_earlier_event_witness :
  Forall (fun e => Event_lt e ev_moon = false) [ev_wall; ev_moon]
  /\ (make [ev_wall; ev_moon] (Some ev_moon) false false (world_drawing 0)).1.1
     = Raise IndexError.
Proof.
  assert (H : Forall (fun e => Event_lt e ev_moon = false) [ev_wall; ev_moon])
    by (repeat constructor).
  split; [exact H|].
  exact (make_no_earlier_event [ev_wall; ev_moon] ev_moon false (world_drawing 0) H).
Defined.

(** ** What a run of [make] depends on *)

Lemma Event_now_same_clock (w1 w2 : World) :
  same_clock w1 w2 ->
  (Event_now w1).1 = (Event_now w2).1 /\ same_clock (Event_now w1).2 (Event_now w2).2.
Proof.
  intros (Hc & Hp & Ho). unfold Event_now, datetime_now, same_clock; simpl.
  rewrite Hc, Hp, Ho. auto.
Qed.

Lemma choice_same_rand {A : Type} (seq : list A) (w1 w2 : World) :
  same_rand w1 w2 ->
  (choice seq w1).1 = (choice seq w2).1 /\ same_rand (choice seq w1).2 (choice seq w2).2.
Proof.
  intros (Hr & Hp). unfold choice, randbelow, same_rand.
  destruct seq as [|a seq]; [auto|].
  rewrite Hr, Hp. destruct (_ !! _); simpl; auto.
Qed.

Lemma make_try_now_same_clock (events : list Event) (m : Event) (w1 w2 : World) :
  same_clock w1 w2 ->
  (make_try events m true w1).1 = (make_try events m true w2).1
  /\ same_clock (make_try events m true w1).2 (make_try events m true w2).2.
Proof.
  intros H. apply Event_now_same_clock in H as [He Hw]. unfold make_try.
  destruct (Event_now w1) as [l1 w1'], (Event_now w2) as [l2 w2'].
  simpl in He, Hw. subst l2. auto.
Qed.

Lemma make_try_before_same_rand (events : list Event) (m : Event) (w1 w2 : World) :
  same_rand w1 w2 ->
  (make_try events m false w1).1 = (make_try events m false w2).1
  /\ same_rand (make_try events m false w1).2 (make_try events m false w2).2.
Proof.
  intros H. unfold make_try, _event_before.
  apply (choice_same_rand (filter (fun e => Is_true (Event_lt e m)) events)) in H
    as [He Hw].
  destruct (choice _ w1) as [r1 w1'], (choice _ w2) as [r2 w2'].
  simpl in He, Hw. subst r2. destruct r1; auto.
Qed.

Lemma make_loop_agree (same : World -> World -> Prop) (is_now : bool) :
  (forall events m w1 w2, same w1 w2 ->
     (make_try events m is_now w1).1 = (make_try events m is_now w2).1
     /\ same (make_try events m is_now w1).2 (make_try events m is_now w2).2) ->
  forall todo i events m timeghost w1 w2, same w1 w2 ->
    observed (make_loop todo i events (Some m) is_now timeghost w1)
    = observed (make_loop todo i events (Some m) is_now timeghost w2).
Proof.
  intros Htry. induction todo as [|todo IH]; intros i events m timeghost w1 w2 Hw.
  - reflexivity.
  - rewrite !make_loop_step.
    destruct (Htry (discard m events) m w1 w2 Hw) as [Hr Hw'].
    destruct (make_try _ m is_now w1) as [r1 w1'], (make_try _ m is_now w2) as [r2 w2'].
    simpl in Hr, Hw'. subst r2.
    destruct r1 as [tg|[]]; try reflexivity.
    apply IH, Hw'.
Qed.

(** C5, as amended: with [is_random] false and a pinned middle, the value
    returned (or the exception raised) and the final list are the same in two
    runs on the same pool when, with [is_now] true, the clock readings of
    [Event.now] and the identities it allocates are the same, whatever the
    random generator does; and when, with [is_now] false, the random draws of
    [_event_before] are the same, whatever the clock reads. *)
Theorem make_sorted_deterministic (events : list Event) (m : Event)
    (rand1 rand2 : nat -> nat) (rpos1 rpos2 : nat)
    (clock1 clock2 : nat -> Z) (cpos1 cpos2 : nat) (o1 o2 : nat) :
  observed (make events (Some m) true false (mkWorld rand1 rpos1 clock1 cpos1 o1))
  = observed (make events (Some m) true false (mkWorld rand2 rpos2 clock1 cpos1 o1))
  /\
  observed (make events (Some m) false false (mkWorld rand1 rpos1 clock1 cpos1 o1))
  = observed (make events (Some m) false false (mkWorld rand1 rpos1 clock2 cpos2 o2)).
Proof.
  unfold make. split.
  - apply (make_loop_agree same_clock true make_try_now_same_clock).
    repeat split.
  - apply (make_loop_agree same_rand false make_try_before_same_rand).
    repeat split.
Qed.

(** C5, as stated, fails: on one pool, sorted, with the same pinned middle
    and [is_now] false, a run whose generator draws 0 and a run whose
    generator draws 1 return different triples. *)
Lemma make_sorted_depends_on_draw :
  ~ (forall events m is_now w1 w2,
       (make events (Some m) is_now false w1).1.1
       = (make events (Some m) is_now false w2).1.1).
Proof.
  intros H.
  specialize (H [ev_titanic; ev_saigon; ev_blackhole; ev_moon; ev_wall] ev_wall
                false (world_drawing 0) (world_drawing 1)).
  vm_compute in H. discriminate H.
Qed.

Example make_sorted_draw_0 :
  (make [ev_titanic; ev_saigon; ev_blackhole; ev_moon; ev_wall] (Some ev_wall)
        false false (world_drawing 0)).1.1
  = Ok (mkTimeghost ev_moon ev_wall ev_blackhole 1).
Proof. vm_compute; reflexivity. Qed.

Example make_sorted_draw_1 :
  (make [ev_titanic; ev_saigon; ev_blackhole; ev_moon; ev_wall] (Some ev_wall)
        false false (world_drawing 1)).1.1
  = Ok (mkTimeghost ev_saigon ev_wall ev_blackhole 1).
Proof. vm_compute; reflexivity. Qed.

(** ** The effect of [make] on its list *)

Lemma list_contains_oid (x : Event) (l : list Event) :
  list_contains x l = true <-> oid x ∈ oid <$> l.
Proof.
  unfold list_contains. induction l as [|e l IH]; simpl.
  - split; [discriminate | intros H; inversion H].
  - rewrite orb_true_iff, IH, elem_of_cons. unfold Event_is.
    rewrite Nat.eqb_eq. reflexivity.
Qed.

Lemma list_remove_contains (x : Event) (l : list Event) :
  NoDup (oid <$> l) -> list_contains x (list_remove x l) = false.
Proof.
  induction l as [|e l IH]; [reflexivity|].
  rewrite fmap_cons, NoDup_cons. intros [Hnotin Hnd].
  cbn [list_remove]. destruct (Event_is e x) eqn:E.
  - apply not_true_iff_false. rewrite list_contains_oid.
    apply Nat.eqb_eq in E. rewrite <- E. exact Hnotin.
  - unfold list_contains in *. cbn [existsb].
    rewrite (IH Hnd), orb_false_r. unfold Event_is in *.
    rewrite Nat.eqb_sym. exact E.
Qed.

Lemma discard_contains (x : Event) (l : list Event) :
  NoDup (oid <$> l) -> list_contains x (discard x l) = false.
Proof.
  intros Hnd. unfold discard. destruct (list_contains x l) eqn:E; [|exact E].
  apply list_remove_contains, Hnd.
Qed.

Lemma list_remove_keeps (x e : Event) (l : list Event) :
  e ∈ l -> Event_is e x = false -> e ∈ list_remove x l.
Proof.
  intros Hin Hne. induction l as [|y l IH]; [inversion Hin|].
  cbn [list_remove]. apply elem_of_cons in Hin as [->|Hin].
  - rewrite Hne. left.
  - destruct (Event_is y x); [exact Hin | right; apply IH, Hin].
Qed.

Lemma list_remove_length (x : Event) (l : list Event) :
  (length l <= S (length (list_remove x l)))%nat.
Proof.
  induction l as [|y l IH]; simpl; [lia|].
  destruct (Event_is y x); simpl; lia.
Qed.

(** Once the middle is no longer in the list, the loop leaves the list as
    it is. *)
Lemma make_loop_frame (todo i : nat) (events : list Event) (m : Event)
    (is_now : bool) (timeghost : option Timeghost) (w : World) :
  list_contains m events = false ->
  (make_loop todo i events (Some m) is_now timeghost w).1.2 = events.
Proof.
  intros Hm. revert i w; induction todo as [|todo IH]; intros i w; [reflexivity|].
  rewrite make_loop_step.
  assert (Hd : discard m events = events) by (unfold discard; rewrite Hm; reflexivity).
  rewrite Hd.
  destruct (make_try events m is_now w) as [[tg|[]] w2]; try reflexivity.
  apply IH.
Qed.

Lemma make_loop_final (todo i : nat) (events : list Event) (m : Event)
    (is_now : bool) (timeghost : option Timeghost) (w : World) :
  NoDup (oid <$> events) ->
  (make_loop (S todo) i events (Some m) is_now timeghost w).1.2 = discard m events.
Proof.
  intros Hnd. rewrite make_loop_step.
  destruct (make_try _ m is_now w) as [[tg|[]] w2]; try reflexivity.
  apply make_loop_frame, discard_contains, Hnd.
Qed.

(** With the middle pinned and [is_now] true the loop makes no random draw. *)
Lemma make_loop_now_no_draw (todo i : nat) (events : list Event) (m : Event)
    (timeghost : option Timeghost) (w : World) :
  rand_pos (make_loop todo i events (Some m) true timeghost w).2 = rand_pos w.
Proof.
  revert i events w; induction todo as [|todo IH]; intros i events w; [reflexivity|].
  rewrite make_loop_step. unfold make_try, Event_now, datetime_now.
  destruct (_make _ _ _ _) as [tg|[]]; try reflexivity.
  rewrite IH. reflexivity.
Qed.

(** C9, as amended: when no object occurs twice in [events], a run of
    [make] first rearranges the list (sort or shuffle); the middle is the
    pinned event or, with none pinned, the event drawn at the first attempt,
    and from there the run is the run with that event pinned (with [is_now]
    true the generator is not consulted again); the list at the end is the
    rearranged list with the middle removed if it was in it, so every other
    event is still there and at most one element is gone.  When the draw
    fails on an empty list the list is unchanged. *)
Theorem make_removes_only_middle (events : list Event) (middle : option Event)
    (is_now is_random : bool) (w : World) :
  NoDup (oid <$> events) ->
  let prepared := if is_random then shuffle events w else (sort events, w) in
  let final := (make events middle is_now is_random w).1.2 in
  prepared.1 ≡ₚ events
  /\ match (match middle with
            | Some m => (Ok m, prepared.2)
            | None => choice prepared.1 prepared.2
            end) with
     | (Ok m, w1) =>
       make events middle is_now is_random w
         = make_loop NUM_TRIES 0 prepared.1 (Some m) is_now None w1
       /\ (if is_now
           then rand_pos (make events middle is_now is_random w).2 = rand_pos w1
           else True)
       /\ final = discard m prepared.1
       /\ (forall e, e ∈ events -> Event_is e m = false -> e ∈ final)
       /\ (length events <= S (length final))%nat
     | (Raise _, _) => final = prepared.1
     end.
Proof.
  intros Hnd prepared final.
  pose proof (prepared_perm events is_random w) as Hperm. fold prepared in Hperm.
  split; [exact Hperm|].
  assert (Hnd0 : NoDup (oid <$> prepared.1)) by (rewrite Hperm; exact Hnd).
  assert (Hmake : make events middle is_now is_random w
                  = make_loop NUM_TRIES 0 prepared.1 middle is_now None prepared.2).
  { unfold make. fold prepared. destruct prepared; reflexivity. }
  assert (Hpinned : forall m w1,
    make events middle is_now is_random w
      = make_loop NUM_TRIES 0 prepared.1 (Some m) is_now None w1 ->
    make events middle is_now is_random w
      = make_loop NUM_TRIES 0 prepared.1 (Some m) is_now None w1
    /\ (if is_now
        then rand_pos (make events middle is_now is_random w).2 = rand_pos w1
        else True)
    /\ final = discard m prepared.1
    /\ (forall e, e ∈ events -> Event_is e m = false -> e ∈ final)
    /\ (length events <= S (length final))%nat).
  { intros m w1 E. split; [exact E|].
    split; [destruct is_now; [rewrite E; apply make_loop_now_no_draw | exact I]|].
    assert (Hfinal : final = discard m prepared.1).
    { unfold final. rewrite E. unfold NUM_TRIES. apply make_loop_final, Hnd0. }
    split; [exact Hfinal|]. rewrite Hfinal. unfold discard. split.
    - intros e He Hne. rewrite <- Hperm in He.
      destruct (list_contains m prepared.1); [apply list_remove_keeps|]; assumption.
    - rewrite <- Hperm.
      destruct (list_contains m prepared.1); [apply list_remove_length | lia]. }
  destruct middle as [m|].
  - apply Hpinned, Hmake.
  - destruct (choice prepared.1 prepared.2) as [[m|e] w1] eqn:Ech.
    + apply Hpinned. rewrite Hmake. unfold NUM_TRIES.
      rewrite make_loop_draw, Ech. reflexivity.
    + unfold final. rewrite Hmake. unfold NUM_TRIES.
      rewrite make_loop_draw, Ech. reflexivity.
Qed.

Lemma make_removes_only_middle_witness :
  NoDup (oid <$> [ev_saigon; ev_wall; ev_moon])
  /\ (make [ev_saigon; ev_wall; ev_moon] None true true (world_drawing 1)).1.2
     = [ev_saigon; ev_wall].
Proof.
  assert (H : NoDup (oid <$> [ev_saigon; ev_wall; ev_moon]))
    by (apply (bool_decide_unpack _); vm_compute; exact I).
  split; [exact H|].
  pose proof (make_removes_only_middle [ev_saigon; ev_wall; ev_moon] None true true
                (world_drawing 1) H) as T.
  cbv zeta in T. destruct T as [_ T].
  destruct (choice _ _) as [[m|e] w1] eqn:E; vm_compute in E; [|discriminate E].
  destruct T as (_ & _ & T & _). rewrite T.
  injection E as <- _. vm_compute; reflexivity.
Defined.

(** C9, as stated, fails: when the list holds the middle object twice, the
    first attempt removes one occurrence and the second attempt the other;
    of three elements one is left. *)
Lemma make_removes_every_copy :
  (make [ev_moon; ev_moon; ev_wall] (Some ev_moon) true false (world_drawing 0)).1.2
  = [ev_wall]
  /\ (length [ev_wall] + 1 < length [ev_moon; ev_moon; ev_wall])%nat.
Proof. split; [vm_compute; reflexivity | simpl; lia]. Qed.

(** ** Rendering *)

Section RenderingProperties.

Variable strftime : Z -> string.

Local Open Scope string_scope.

(** C10: when the description of [last] is the string ["now"], whatever
    made that event, [factoid] ends in "than today." and [verbose_factoid]
    reads the wall clock and ends in "than today (<the date read>) "; the
    date of [last] itself is not rendered. *)
Theorem factoid_now_marker (tg : Timeghost) (fuel : nat) (w : World) :
  description (last tg) = "now" ->
  factoid tg
    = "The " ++ description (middle tg) ++ " is closer to the "
      ++ description (first tg) ++ " than today."
  /\ verbose_factoid strftime fuel tg w
    = (match precision_search fuel tg 0 with
       | None => None
       | Some precision =>
         Some ("The " ++ description (middle tg) ++ " ("
               ++ strftime (date (middle tg)) ++ ") " ++ "is closer ("
               ++ format_f (first_gap_years tg) precision ++ " years) to "
               ++ "the " ++ description (first tg) ++ " ("
               ++ strftime (date (first tg)) ++ ") ("
               ++ format_f (last_gap_years tg) precision ++ " years) than "
               ++ "today" ++ " (" ++ strftime (clock w (clock_pos w)) ++ ") ")
       end, (datetime_now w).2).
Proof.
  intros Hnow. unfold factoid, verbose_factoid, datestr, Event_repr.
  rewrite Hnow. change (String.eqb "now" NOW_MARKER) with true. cbv iota.
  split; [reflexivity|].
  unfold datetime_now.
  destruct (precision_search fuel tg 0); reflexivity.
Qed.

End RenderingProperties.

Lemma factoid_now_marker_witness :
  description (last (mkTimeghost ev_moon ev_wall ev_labelled_now 1)) = "now"%string
  /\ factoid (mkTimeghost ev_moon ev_wall ev_labelled_now 1)
     = "The Fall of the Berlin Wall is closer to the Moon landing than today."%string
  /\ (verbose_factoid day_number 5 (mkTimeghost ev_moon ev_wall ev_labelled_now 1)
        (world_drawing 0)).1
     = Some ("The Fall of the Berlin Wall (day 726415) is closer (20 years) to "
             ++ "the Moon landing (day 718998) (29 years) than today (day 739924) ")%string.
Proof.
  split; [reflexivity|].
  destruct (factoid_now_marker day_number (mkTimeghost ev_moon ev_wall ev_labelled_now 1)
              5 (world_drawing 0) eq_refl) as [H1 H2].
  split; [rewrite H1; reflexivity | rewrite H2; vm_compute; reflexivity].
Defined.

(** ** The precision loop of [verbose_factoid] *)

(** When the two year figures are the same float, the condition of the loop
    holds at every precision. *)
Lemma precision_search_same_float (tg : Timeghost) :
  first_gap_years tg = last_gap_years tg ->
  forall fuel precision, precision_search fuel tg precision = None.
Proof.
  intros Heq. induction fuel as [|fuel IH]; intros precision; [reflexivity|].
  cbn [precision_search]. rewrite Heq, String.eqb_refl. apply IH.
Qed.

(** C6: the triple 1000-01-01, 1513-01-02, 2026-01-02 plus one microsecond
    is valid, its gaps differ by one microsecond, and both gaps are the same
    number of years as floats; the two figures are the same string at every
    precision, the loop never ends, and [verbose_factoid] renders nothing. *)
Theorem precision_search_stuck :
  is_valid tg_microsecond = true
  /\ first_gap tg_microsecond = 16188768000000000
  /\ last_gap tg_microsecond = 16188768000000001
  /\ first_gap_years tg_microsecond = last_gap_years tg_microsecond
  /\ (forall fuel precision, precision_search fuel tg_microsecond precision = None)
  /\ (forall strftime fuel w,
        (verbose_factoid strftime fuel tg_microsecond w).1 = None).
Proof.
  assert (Heq : first_gap_years tg_microsecond = last_gap_years tg_microsecond)
    by (vm_compute; reflexivity).
  split; [vm_compute; reflexivity|].
  split; [vm_compute; reflexivity|].
  split; [vm_compute; reflexivity|].
  split; [exact Heq|]. split.
  - apply precision_search_same_float, Heq.
  - intros strftime fuel w. unfold verbose_factoid.
    rewrite (precision_search_same_float _ Heq).
    destruct (String.eqb _ _); [destruct (datetime_now w)|]; reflexivity.
Qed.

(** When the loop ends, it ends at the smallest precision, counted up from
    the starting one, at which the two figures are different strings. *)
Lemma precision_search_smallest (fuel : nat) (tg : Timeghost) (start precision : nat) :
  precision_search fuel tg start = Some precision ->
  (start <= precision)%nat
  /\ format_f (first_gap_years tg) precision <> format_f (last_gap_years tg) precision
  /\ forall q, (start <= q < precision)%nat ->
       format_f (first_gap_years tg) q = format_f (last_gap_years tg) q.
Proof.
  revert start; induction fuel as [|fuel IH]; intros start; [discriminate|].
  cbn [precision_search].
  destruct (String.eqb _ _) eqn:E.
  - intros H. apply IH in H as (Hle & Hne & Heq).
    split; [lia|]. split; [exact Hne|].
    intros q Hq. destruct (decide (q = start)) as [->|Hqs].
    + apply String.eqb_eq, E.
    + apply Heq. lia.
  - intros [= <-]. split; [lia|]. split.
    + apply String.eqb_neq, E.
    + intros q Hq. lia.
Qed.

(** * Further properties

    ** Validity and the start of the haunting *)

(** X1: when [start_of_haunting] is a date, the triple is valid exactly
    when [first] is before [middle] and [last] is after that date;
    [start_of_haunting] raises [OverflowError] exactly when [middle], moved
    on by its distance from [first], leaves the range of [datetime], which a
    valid triple whose [last] is in the range (at the same offset) never
    does. *)
Theorem is_valid_start_of_haunting (utcoffset : Z) (tg : Timeghost) :
  match start_of_haunting utcoffset tg with
  | Datetime t =>
    t = date (middle tg) + (date (middle tg) - date (first tg))
    /\ datetime_min <= t + utcoffset <= datetime_max
    /\ (is_valid tg = true <-> date (first tg) < date (middle tg) /\ t < date (last tg))
  | OverflowError =>
    ~ (datetime_min
         <= date (middle tg) + utcoffset + (date (middle tg) - date (first tg))
         <= datetime_max)
    /\ (datetime_min <= date (first tg) + utcoffset ->
        date (last tg) + utcoffset <= datetime_max -> is_valid tg = false)
  end.
Proof.
  unfold start_of_haunting, datetime_add, first_gap, Event_sub.
  destruct (_ && _) eqn:E.
  - apply andb_true_iff in E as [E1 E2]. apply Z.leb_le in E1, E2.
    split; [reflexivity|]. split; [lia|].
    rewrite is_valid_iff. unfold first_gap, last_gap, Event_sub. lia.
  - apply andb_false_iff in E. split.
    + intros [H1 H2]. destruct E as [E|E]; apply Z.leb_gt in E; lia.
    + intros Hf Hl. apply is_valid_false_iff.
      unfold first_gap, last_gap, Event_sub.
      destruct E as [E|E]; apply Z.leb_gt in E; lia.
Qed.

(** The sum overflows for [first] in year 1 and [middle] in year 6000. *)
Example start_of_haunting_overflow :
  start_of_haunting 0
    (mkTimeghost (Event_init 13 "Year 1" (-62135596800000000))
                 (Event_init 14 "Year 6000" 127174492800000000)
                 (Event_init 15 "Year 9999" 253402300799999999) 1)
  = OverflowError.
Proof. reflexivity. Qed.

(** ** Random choice of an earlier event *)

Lemma choice_spec {A : Type} (seq : list A) (w : World) :
  match (choice seq w).1 with
  | Ok x => x ∈ seq /\ rand_pos (choice seq w).2 = S (rand_pos w)
  | Raise e => e = IndexError /\ seq = [] /\ (choice seq w).2 = w
  end.
Proof.
  unfold choice. destruct seq as [|a seq]; [simpl; auto|].
  unfold randbelow. cbn [fst snd].
  destruct (_ !! _) as [x|] eqn:E; cbn [fst snd].
  - split; [|reflexivity]. eapply list_elem_of_lookup_2, E.
  - exfalso. apply lookup_ge_None in E.
    pose proof (Nat.mod_upper_bound (rand w (rand_pos w)) (length (a :: seq))) as H.
    simpl in *. lia.
Qed.

Lemma _event_before_choice (m : Event) (events : list Event) (w : World) :
  match (_event_before m events w).1 with
  | Ok e =>
    e ∈ events /\ date e < date m
    /\ rand_pos (_event_before m events w).2 = S (rand_pos w)
  | Raise x =>
    x = IndexError /\ Forall (fun e => date m <= date e) events
    /\ (_event_before m events w).2 = w
  end.
Proof.
  unfold _event_before.
  pose proof (choice_spec (filter (fun e => Is_true (Event_lt e m)) events) w) as H.
  destruct (choice _ w).1 as [e|x].
  - destruct H as [Hin Hpos]. apply list_elem_of_filter in Hin as [Hlt Hin].
    unfold Event_lt in Hlt. apply Is_true_true, Z.ltb_lt in Hlt. auto.
  - destruct H as (-> & Hnil & Hw). split; [reflexivity|]. split; [|exact Hw].
    apply Forall_forall. intros e He.
    destruct (Z.ltb_spec (date e) (date m)) as [Hlt|Hge]; [|exact Hge].
    exfalso. eapply filter_nil_not_elem_of; [exact Hnil| |exact He].
    unfold Event_lt. apply Is_true_true, Z.ltb_lt, Hlt.
Qed.

(** X2: [_event_before] returns an event of the list that is earlier than
    [middle], after one draw of the generator; it raises [IndexError],
    without a draw, exactly when no event of the list is earlier. *)
Theorem event_before_spec (m : Event) (events : list Event) (w : World) :
  match (_event_before m events w).1 with
  | Ok e =>
    e ∈ events /\ date e < date m
    /\ rand_pos (_event_before m events w).2 = S (rand_pos w)
  | Raise x =>
    x = IndexError /\ Forall (fun e => date m <= date e) events
    /\ (_event_before m events w).2 = w
  end.
Proof. apply _event_before_choice. Qed.

(** ** What [make] returns *)

Lemma list_remove_sublist (x : Event) (l : list Event) : list_remove x l `sublist_of` l.
Proof.
  induction l as [|e l IH]; simpl; [constructor|].
  destruct (Event_is e x); [by apply sublist_cons | by apply sublist_skip].
Qed.

Lemma discard_sublist (x : Event) (l : list Event) : discard x l `sublist_of` l.
Proof.
  unfold discard. destruct (list_contains x l); [apply list_remove_sublist | reflexivity].
Qed.

Lemma discard_keeps (x e : Event) (l : list Event) :
  e ∈ l -> Event_is e x = false -> e ∈ discard x l.
Proof.
  intros Hin Hne. unfold discard.
  destruct (list_contains x l); [by apply list_remove_keeps | exact Hin].
Qed.

Lemma sublist_sorted (R : Event -> Event -> Prop) (l1 l2 : list Event) :
  l1 `sublist_of` l2 -> StronglySorted R l2 -> StronglySorted R l1.
Proof.
  induction 1 as [|x l1 l2 Hsub IH|x l1 l2 Hsub IH]; intros Hs.
  - constructor.
  - apply StronglySorted_inv in Hs as [Hs Hall]. constructor; [apply IH, Hs|].
    eapply Forall_forall. intros y Hy. eapply Forall_forall in Hall; [exact Hall|].
    eapply elem_of_sublist; eassumption.
  - apply StronglySorted_inv in Hs as [Hs _]. apply IH, Hs.
Qed.

(** A later candidate than [middle] does not validate as [first]; an earlier
    one does not validate as [last]. *)
Lemma later_first_invalid (x m l : Event) :
  Event_gt x m = true -> is_valid (mkTimeghost x m l 1) = false.
Proof.
  unfold Event_gt, Event_lt. intros H%Z.ltb_lt.
  apply is_valid_false_iff. simpl. lia.
Qed.

Lemma earlier_last_invalid (f m x : Event) :
  Event_lt x m = true -> is_valid (mkTimeghost f m x 1) = false.
Proof.
  unfold Event_lt. intros H%Z.ltb_lt.
  apply is_valid_false_iff. simpl. lia.
Qed.

(** A successful attempt with [is_now] true: [last] is the event that
    [Event.now()] makes, [first] is the first event of the list that
    validates. *)
Lemma make_try_now_spec (events : list Event) (m : Event) (w w' : World)
    (tg : Timeghost) :
  make_try events m true w = (Ok tg, w') ->
  middle tg = m /\ last tg = (Event_now w).1 /\ w' = (Event_now w).2
  /\ tries tg = 1%nat /\ is_valid tg = true
  /\ exists pre post,
       events = pre ++ first tg :: post
       /\ Forall (fun x => is_valid (mkTimeghost x m (last tg) 1) = false) pre.
Proof.
  unfold make_try. destruct (Event_now w) as [l w1]. unfold _make.
  pose proof (_make_scan_spec (fun f => Event_gt f m) (fun f => (f, m, l)) events) as S.
  cbv zeta in S. intros H. injection H as H <-. rewrite H in S.
  destruct S as (pre & e & post & -> & Hpre & _ & Hv & ->). simpl in *.
  repeat split; auto. exists pre, post. split; [reflexivity|].
  eapply Forall_impl; [exact Hpre|]. intros x [Hx|Hx]; [|exact Hx].
  by apply later_first_invalid.
Qed.

(** A successful attempt with [is_now] false: [first] is an event of the
    list, [last] is the first event of the list that validates with it. *)
Lemma make_try_before_spec (events : list Event) (m : Event) (w w' : World)
    (tg : Timeghost) :
  make_try events m false w = (Ok tg, w') ->
  middle tg = m /\ first tg ∈ events
  /\ tries tg = 1%nat /\ is_valid tg = true
  /\ exists pre post,
       events = pre ++ last tg :: post
       /\ Forall (fun x => is_valid (mkTimeghost (first tg) m x 1) = false) pre.
Proof.
  unfold make_try.
  pose proof (_event_before_choice m events w) as B.
  destruct (_event_before m events w) as [[f|x] w1]; [|discriminate].
  simpl in B. destruct B as (Hin & _ & _). unfold _make.
  pose proof (_make_scan_spec (fun l => Event_lt l m) (fun l => (f, m, l)) events) as S.
  cbv zeta in S. intros H. injection H as H <-. rewrite H in S.
  destruct S as (pre & e & post & -> & Hpre & _ & Hv & ->). simpl in *.
  repeat split; auto. exists pre, post. split; [reflexivity|].
  eapply Forall_impl; [exact Hpre|]. intros x [Hx|Hx]; [|exact Hx].
  by apply earlier_last_invalid.
Qed.

(** When the loop returns a Timeghost, it is the Timeghost of a successful
    attempt on the list that the loop leaves, but for [tries]; that list is
    the given one without some occurrences of the middle. *)
Lemma make_loop_success (todo i : nat) (events : list Event) (m : Event)
    (is_now : bool) (w : World) (tg : Timeghost) :
  (make_loop todo i events (Some m) is_now None w).1.1 = Ok tg ->
  let final := (make_loop todo i events (Some m) is_now None w).1.2 in
  final `sublist_of` events
  /\ (forall e, e ∈ events -> Event_is e m = false -> e ∈ final)
  /\ exists tg0 w1 w2,
       make_try final m is_now w1 = (Ok tg0, w2) /\ tg = set_tries tg0 (tries tg).
Proof.
  revert i events w; induction todo as [|todo IH]; intros i events w; [discriminate|].
  rewrite make_loop_step.
  destruct (make_try _ _ _ _) as [[tg0|e] w2] eqn:Etry.
  - cbn [fst snd]. intros [= <-]. split; [apply discard_sublist|].
    split; [intros e He Hne; by apply discard_keeps|].
    exists tg0, w, w2. split; [exact Etry | reflexivity].
  - destruct e; try (cbn [fst snd]; discriminate).
    intros H. specialize (IH _ _ _ H). cbv zeta in IH.
    destruct IH as (Hsub & Hkeep & Hex). split; [|split; [|exact Hex]].
    + etransitivity; [exact Hsub | apply discard_sublist].
    + intros e He Hne. apply Hkeep; [by apply discard_keeps | exact Hne].
Qed.

(** The same for a whole run: [m] is the pinned middle or the event drawn
    from the pool. *)
Lemma make_success (events : list Event) (middle : option Event)
    (is_now is_random : bool) (w : World) (tg : Timeghost) :
  (make events middle is_now is_random w).1.1 = Ok tg ->
  exists m final tg0 w1 w2,
    (middle = Some m \/ middle = None /\ m ∈ events)
    /\ final `sublist_of` (if is_random then shuffle events w else (sort events, w)).1
    /\ (forall e, e ∈ events -> Event_is e m = false -> e ∈ final)
    /\ (forall e, e ∈ final -> e ∈ events)
    /\ make_try final m is_now w1 = (Ok tg0, w2)
    /\ tg = set_tries tg0 (tries tg).
Proof.
  unfold make. pose proof (prepared_perm events is_random w) as Hperm.
  destruct (if is_random then _ else _) as [events0 w0]; cbn [fst] in *.
  unfold NUM_TRIES. intros H.
  assert (Hpinned : forall m w1,
    (make_loop 100 0 events0 (Some m) is_now None w1).1.1 = Ok tg ->
    (middle = Some m \/ middle = None /\ m ∈ events) ->
    exists m final tg0 w1 w2,
      (middle = Some m \/ middle = None /\ m ∈ events)
      /\ final `sublist_of` events0
      /\ (forall e, e ∈ events -> Event_is e m = false -> e ∈ final)
      /\ (forall e, e ∈ final -> e ∈ events)
      /\ make_try final m is_now w1 = (Ok tg0, w2)
      /\ tg = set_tries tg0 (tries tg)).
  { intros m w1 Hok Hm. pose proof (make_loop_success _ _ _ _ _ _ _ Hok) as S.
    cbv zeta in S. destruct S as (Hsub & Hkeep & tg0 & wa & wb & Htry & Htg).
    exists m, (make_loop 100 0 events0 (Some m) is_now None w1).1.2, tg0, wa, wb.
    repeat split; auto.
    - intros e He Hne. apply Hkeep; [by rewrite Hperm | exact Hne].
    - intros e He. rewrite <- Hperm. eapply elem_of_sublist; eassumption. }
  destruct middle as [m|].
  - apply (Hpinned m w0 H). left; reflexivity.
  - rewrite make_loop_draw in H.
    pose proof (choice_spec events0 w0) as C.
    destruct (choice events0 w0) as [[m|x] w1]; [|discriminate].
    cbn [fst] in C. destruct C as [Hin _].
    apply (Hpinned m w1 H). right. split; [reflexivity | by rewrite <- Hperm].
Qed.

Lemma make_triple (events : list Event) (m : option Event)
    (is_now is_random : bool) (w : World) (tg : Timeghost) :
  (make events m is_now is_random w).1.1 = Ok tg ->
  is_valid tg = true
  /\ match m with Some pinned => middle tg = pinned | None => middle tg ∈ events end
  /\ first tg ∈ events
  /\ (if is_now then description (last tg) = NOW_MARKER else last tg ∈ events).
Proof.
  intros H. apply make_success in H
    as (m0 & final & tg0 & w1 & w2 & Hm & _ & _ & Hin & Htry & ->).
  destruct is_now.
  - apply make_try_now_spec in Htry
      as (Hmid & Hlast & _ & _ & Hv & pre & post & Hfinal & _).
    cbn [first middle last set_tries]. split; [exact Hv|]. split; [|split].
    + rewrite Hmid. destruct Hm as [->|[-> Hm]]; [reflexivity | exact Hm].
    + apply Hin. rewrite Hfinal, elem_of_app, elem_of_cons. auto.
    + rewrite Hlast. reflexivity.
  - apply make_try_before_spec in Htry
      as (Hmid & Hfirst & _ & Hv & pre & post & Hfinal & _).
    cbn [first middle last set_tries]. split; [exact Hv|]. split; [|split].
    + rewrite Hmid. destruct Hm as [->|[-> Hm]]; [reflexivity | exact Hm].
    + apply Hin, Hfirst.
    + apply Hin. rewrite Hfinal, elem_of_app, elem_of_cons. auto.
Qed.

(** X3: the Timeghost that [make] returns is valid; its middle is the
    pinned event or, with none pinned, an event of the pool; its first is an
    event of the pool; its last is an event labelled "now" when [is_now] is
    true and an event of the pool otherwise. *)
Theorem make_triple_from_pool (events : list Event) (m : option Event)
    (is_now is_random : bool) (w : World) (tg : Timeghost) :
  (make events m is_now is_random w).1.1 = Ok tg ->
  is_valid tg = true
  /\ match m with Some pinned => middle tg = pinned | None => middle tg ∈ events end
  /\ first tg ∈ events
  /\ (if is_now then description (last tg) = NOW_MARKER else last tg ∈ events).
Proof. apply make_triple. Qed.

Lemma make_triple_from_pool_witness :
  let tg := mkTimeghost ev_moon ev_wall ev_blackhole 1 in
  (make [ev_titanic; ev_saigon; ev_blackhole; ev_moon; ev_wall] (Some ev_wall)
        false false (world_drawing 0)).1.1 = Ok tg
  /\ is_valid tg = true /\ middle tg = ev_wall
  /\ first tg ∈ [ev_titanic; ev_saigon; ev_blackhole; ev_moon; ev_wall]
  /\ last tg ∈ [ev_titanic; ev_saigon; ev_blackhole; ev_moon; ev_wall].
Proof.
  intros tg.
  assert (H : (make [ev_titanic; ev_saigon; ev_blackhole; ev_moon; ev_wall]
                 (Some ev_wall) false false (world_drawing 0)).1.1 = Ok tg)
    by (vm_compute; reflexivity).
  split; [exact H|].
  exact (make_triple_from_pool _ _ _ _ _ _ H).
Defined.

(** ** The sorted search *)

Lemma sorted_after_prefix (pre post : list Event) (x e : Event) :
  StronglySorted (fun a b => date a <= date b) (pre ++ x :: post) ->
  e ∈ x :: post -> date x <= date e.
Proof.
  intros Hs He.
  apply (sublist_sorted _ (x :: post)) in Hs; [|apply sublist_inserts_l; reflexivity].
  apply StronglySorted_inv in Hs as [_ Hall].
  apply elem_of_cons in He as [->|He]; [lia|].
  eapply Forall_forall in Hall; [exact Hall | exact He].
Qed.

Lemma not_in_rejected (P : Event -> bool) (pre post : list Event) (x e : Event) :
  Forall (fun y => P y = false) pre -> P e = true ->
  e ∈ pre ++ x :: post -> e ∈ x :: post.
Proof.
  intros Hpre He Hin. apply elem_of_app in Hin as [Hin|Hin]; [|exact Hin].
  eapply Forall_forall in Hpre; [|exact Hin]. congruence.
Qed.

Lemma set_tries_fields (tg tg0 : Timeghost) (n : nat) :
  tg = set_tries tg0 n ->
  first tg = first tg0 /\ middle tg = middle tg0 /\ last tg = last tg0.
Proof. intros ->. auto. Qed.

(** X4: with [is_random] false and [is_now] true, the first event of the
    Timeghost that [make] returns is the earliest one of the pool that
    validates with its middle and its last: no event of the pool, the middle
    object apart, validates from further back. *)
Theorem make_sorted_now_earliest (events : list Event) (m : option Event)
    (w : World) (tg : Timeghost) (e : Event) :
  (make events m true false w).1.1 = Ok tg ->
  e ∈ events -> Event_is e (middle tg) = false ->
  is_valid (mkTimeghost e (middle tg) (last tg) 1) = true ->
  date (first tg) <= date e.
Proof.
  intros H He Hne Hv. apply make_success in H
    as (m0 & final & tg0 & w1 & w2 & _ & Hsub & Hkeep & _ & Htry & Htg).
  apply make_try_now_spec in Htry
    as (Hmid & _ & _ & _ & _ & pre & post & Hfinal & Hpre).
  destruct (set_tries_fields _ _ _ Htg) as (Ef & Em & El).
  rewrite ?Ef, ?Em, ?El in *. subst m0.
  apply (sublist_sorted (fun a b => date a <= date b)) in Hsub; [|apply sort_ordered].
  rewrite Hfinal in Hsub. eapply sorted_after_prefix; [exact Hsub|].
  eapply (not_in_rejected (fun x => is_valid (mkTimeghost x (middle tg0) (last tg0) 1)));
    [exact Hpre | exact Hv |].
  rewrite <- Hfinal. by apply Hkeep.
Qed.

Lemma make_sorted_now_earliest_witness :
  let tg := mkTimeghost ev_moon ev_wall (Event_init 100 "now" 1793793600000000) 1 in
  (make [ev_saigon; ev_wall; ev_moon] (Some ev_wall) true false
        (world_drawing 0)).1.1 = Ok tg
  /\ ev_saigon ∈ [ev_saigon; ev_wall; ev_moon]
  /\ is_valid (mkTimeghost ev_saigon (middle tg) (last tg) 1) = true
  /\ date (first tg) <= date ev_saigon.
Proof.
  intros tg.
  assert (H : (make [ev_saigon; ev_wall; ev_moon] (Some ev_wall) true false
                 (world_drawing 0)).1.1 = Ok tg) by (vm_compute; reflexivity).
  assert (Hin : ev_saigon ∈ [ev_saigon; ev_wall; ev_moon]) by left.
  assert (Hv : is_valid (mkTimeghost ev_saigon (middle tg) (last tg) 1) = true)
    by (vm_compute; reflexivity).
  split; [exact H|]. split; [exact Hin|]. split; [exact Hv|].
  exact (make_sorted_now_earliest _ _ _ _ _ H Hin eq_refl Hv).
Defined.

(** X5: with [is_random] false and [is_now] false, the last event of the
    Timeghost that [make] returns is the earliest one of the pool that
    validates with its first and its middle: the margin by which the triple
    is valid is the smallest that the drawn first allows. *)
Theorem make_sorted_arbitrary_earliest (events : list Event) (m : option Event)
    (w : World) (tg : Timeghost) (e : Event) :
  (make events m false false w).1.1 = Ok tg ->
  e ∈ events -> Event_is e (middle tg) = false ->
  is_valid (mkTimeghost (first tg) (middle tg) e 1) = true ->
  date (last tg) <= date e.
Proof.
  intros H He Hne Hv. apply make_success in H
    as (m0 & final & tg0 & w1 & w2 & _ & Hsub & Hkeep & _ & Htry & Htg).
  apply make_try_before_spec in Htry
    as (Hmid & _ & _ & _ & pre & post & Hfinal & Hpre).
  destruct (set_tries_fields _ _ _ Htg) as (Ef & Em & El).
  rewrite ?Ef, ?Em, ?El in *. subst m0.
  apply (sublist_sorted (fun a b => date a <= date b)) in Hsub; [|apply sort_ordered].
  rewrite Hfinal in Hsub. eapply sorted_after_prefix; [exact Hsub|].
  eapply (not_in_rejected (fun x => is_valid (mkTimeghost (first tg0) (middle tg0) x 1)));
    [exact Hpre | exact Hv |].
  rewrite <- Hfinal. by apply Hkeep.
Qed.

Lemma make_sorted_arbitrary_earliest_witness :
  let pool := [ev_titanic; ev_saigon; ev_blackhole; ev_moon; ev_wall;
               Event_init 11 "Year 2026" 1767312000000001] in
  let tg := mkTimeghost ev_moon ev_wall ev_blackhole 1 in
  (make pool (Some ev_wall) false false (world_drawing 0)).1.1 = Ok tg
  /\ is_valid (mkTimeghost (first tg) (middle tg)
                 (Event_init 11 "Year 2026" 1767312000000001) 1) = true
  /\ date (last tg) <= 1767312000000001.
Proof.
  intros pool tg.
  assert (H : (make pool (Some ev_wall) false false (world_drawing 0)).1.1 = Ok tg)
    by (vm_compute; reflexivity).
  assert (Hin : Event_init 11 "Year 2026" 1767312000000001 ∈ pool)
    by (unfold pool; rewrite !elem_of_cons; auto 10).
  assert (Hv : is_valid (mkTimeghost (first tg) (middle tg)
                 (Event_init 11 "Year 2026" 1767312000000001) 1) = true)
    by (vm_compute; reflexivity).
  split; [exact H|]. split; [exact Hv|].
  exact (make_sorted_arbitrary_earliest _ _ _ _ _ H Hin eq_refl Hv).
Defined.

(** ** Pools without a candidate *)

Lemma _make_first_none (events : list Event) (m l : Event) :
  Forall (fun e => date m <= date e) events ->
  _make events None (Some m) (Some l) = Raise TimeghostCreationError.
Proof.
  intros Hall. unfold _make.
  pose proof (_make_scan_spec (fun f => Event_gt f m) (fun f => (f, m, l)) events) as S.
  cbv zeta in S. destruct (_make_scan _ _ events) as [tg|x].
  - destruct S as (pre & e & post & -> & _ & _ & Hv & _). exfalso.
    apply is_valid_iff in Hv. simpl in Hv.
    apply Forall_app in Hall as [_ Hall]. apply Forall_cons in Hall as [He _]. lia.
  - destruct S as [-> _]. reflexivity.
Qed.

Lemma make_loop_now_exhausted (todo i : nat) (events : list Event) (m : Event)
    (w : World) :
  Forall (fun e => date m <= date e) events ->
  (make_loop todo i events (Some m) true None w).1.1 = Raise UnboundLocalError.
Proof.
  revert i events w; induction todo as [|todo IH]; intros i events w Hall; [reflexivity|].
  rewrite make_loop_step. unfold make_try.
  destruct (Event_now w) as [l w1].
  rewrite _make_first_none by (apply discard_Forall, Hall).
  apply IH, discard_Forall, Hall.
Qed.

(** X6: when no event of the pool is earlier than the pinned middle and
    [is_now] is true, every attempt fails whatever the clock reads and [make]
    raises [UnboundLocalError]. *)
Theorem make_now_no_earlier_event (events : list Event) (m : Event)
    (is_random : bool) (w : World) :
  Forall (fun e => date m <= date e) events ->
  (make events (Some m) true is_random w).1.1 = Raise UnboundLocalError.
Proof.
  intros Hall. unfold make.
  pose proof (prepared_perm events is_random w) as Hperm.
  destruct (if is_random then _ else _) as [events0 w0]; cbn [fst] in Hperm.
  apply make_loop_now_exhausted. by rewrite Hperm.
Qed.

Lemma make_now_no_earlier_event_witness :
  Forall (fun e => date ev_moon <= date e) [ev_wall; ev_moon]
  /\ (make [ev_wall; ev_moon] (Some ev_moon) true true (world_drawing 1)).1.1
     = Raise UnboundLocalError.
Proof.
  assert (H : Forall (fun e => date ev_moon <= date e) [ev_wall; ev_moon])
    by (repeat constructor; vm_compute; discriminate).
  split; [exact H|].
  exact (make_now_no_earlier_event _ _ true (world_drawing 1) H).
Defined.

(** X7: on an empty pool [make] never returns: with no middle pinned the
    draw of the middle raises [IndexError]; with a middle pinned it raises
    [IndexError] when [is_now] is false and [UnboundLocalError] when it is
    true. *)
Theorem make_empty_pool (m : option Event) (is_now is_random : bool) (w : World) :
  (make [] m is_now is_random w).1.1 =
  match m, is_now with
  | Some _, true => Raise UnboundLocalError
  | _, _ => Raise IndexError
  end.
Proof.
  destruct m as [m|].
  - destruct is_now.
    + destruct is_random; apply make_loop_now_exhausted; constructor.
    + destruct is_random; reflexivity.
  - destruct is_random; reflexivity.
Qed.

(** ** Attempts and clock readings *)

Lemma shuffle_from_same_clock {A : Type} (i : nat) (x : list A) (w : World) :
  same_clock (shuffle_from i x w).2 w.
Proof.
  revert x w; induction i as [|i IH]; intros x w; simpl; [by repeat split|].
  destruct (IH (swap x (S i) (rand w (rand_pos w) `mod` S (S i))%nat)
              {| rand := rand w; rand_pos := S (rand_pos w); clock := clock w;
                 clock_pos := clock_pos w; next_oid := next_oid w |})
    as (H1 & H2 & H3).
  by repeat split.
Qed.

Lemma choice_same_clock {A : Type} (seq : list A) (w : World) :
  same_clock (choice seq w).2 w.
Proof.
  unfold choice, randbelow. destruct seq as [|a seq]; [by repeat split|].
  destruct (_ !! _); by repeat split.
Qed.

Lemma _make_first_last (events : list Event) (m l : Event) (tg : Timeghost) :
  _make events None (Some m) (Some l) = Ok tg -> last tg = l /\ tries tg = 1%nat.
Proof.
  unfold _make. intros H.
  pose proof (_make_scan_spec (fun f => Event_gt f m) (fun f => (f, m, l)) events) as S.
  cbv zeta in S. rewrite H in S.
  destruct S as (pre & e & post & _ & _ & _ & _ & ->). by split.
Qed.

Lemma make_loop_now_clock (todo i : nat) (events : list Event) (m : Event) (w : World) :
  let r := make_loop todo i events (Some m) true None w in
  match r.1.1 with
  | Ok tg =>
    (clock_pos r.2 + i = clock_pos w + tries tg)%nat
    /\ date (last tg) = clock w (clock_pos w + tries tg - 1 - i)%nat
  | Raise e => e = UnboundLocalError /\ clock_pos r.2 = (clock_pos w + todo)%nat
  end.
Proof.
  revert i events w; induction todo as [|todo IH]; intros i events w.
  - simpl. split; [reflexivity | lia].
  - cbv zeta. rewrite make_loop_step. unfold make_try, Event_now, datetime_now.
    destruct (_make _ _ _ _) as [tg|e] eqn:Em.
    + apply _make_first_last in Em as [Hlast Htries].
      cbn [fst snd set_tries tries last]. rewrite Hlast. simpl.
      split; [lia|]. f_equal. lia.
    + apply _make_raises in Em as ->.
      cbn [rand rand_pos clock clock_pos next_oid fst snd].
      match goal with |- context [make_loop todo (S i) ?evs (Some m) true None ?w1] =>
        specialize (IH (S i) evs w1); cbv zeta in IH;
        pose proof (make_loop_returns todo (S i) evs (Some m) true w1) as Hb;
        destruct (make_loop todo (S i) evs (Some m) true None w1).1.1 as [tg|x]
      end.
      * destruct (Hb tg eq_refl) as [_ Hb']. simpl in IH. destruct IH as [IH1 IH2].
        split; [lia|]. rewrite IH2. f_equal. lia.
      * simpl in IH. destruct IH as [-> IH]. split; [reflexivity | lia].
Qed.

(** X8: with [is_now] true each attempt reads the clock once, so a returned
    Timeghost has consumed [tries] readings and its last event carries the
    latest of them; a run that ends in [UnboundLocalError] has consumed 100
    readings, and one that ends in the [IndexError] of the draw none. *)
Theorem make_now_clock_readings (events : list Event) (m : option Event)
    (is_random : bool) (w : World) :
  let r := make events m true is_random w in
  match r.1.1 with
  | Ok tg =>
    clock_pos r.2 = (clock_pos w + tries tg)%nat
    /\ date (last tg) = clock w (clock_pos w + tries tg - 1)%nat
  | Raise UnboundLocalError => clock_pos r.2 = (clock_pos w + 100)%nat
  | Raise _ => clock_pos r.2 = clock_pos w
  end.
Proof.
  cbv zeta. unfold make.
  assert (Hprep : same_clock (if is_random then shuffle events w else (sort events, w)).2 w).
  { destruct is_random; [apply shuffle_from_same_clock | by repeat split]. }
  destruct (if is_random then _ else _) as [events0 w0]; cbn [snd] in Hprep.
  unfold NUM_TRIES.
  assert (Hpinned : forall x w1, same_clock w1 w ->
    match (make_loop 100 0 events0 (Some x) true None w1).1.1 with
    | Ok tg =>
      clock_pos (make_loop 100 0 events0 (Some x) true None w1).2
        = (clock_pos w + tries tg)%nat
      /\ date (last tg) = clock w (clock_pos w + tries tg - 1)%nat
    | Raise UnboundLocalError =>
      clock_pos (make_loop 100 0 events0 (Some x) true None w1).2
        = (clock_pos w + 100)%nat
    | Raise _ => clock_pos (make_loop 100 0 events0 (Some x) true None w1).2 = clock_pos w
    end).
  { intros x w1 (Hc1 & Hp1 & _).
    pose proof (make_loop_now_clock 100 0 events0 x w1) as L. cbv zeta in L.
    destruct (make_loop 100 0 events0 (Some x) true None w1).1.1 as [tg|e].
    - destruct L as [L1 L2]. rewrite Hc1, Hp1 in *. split; [lia|].
      rewrite L2. f_equal. lia.
    - destruct L as [-> L]. lia. }
  destruct m as [x|]; [apply Hpinned, Hprep|].
  rewrite make_loop_draw.
  pose proof (choice_same_clock events0 w0) as Cs.
  pose proof (choice_spec events0 w0) as C.
  destruct (choice events0 w0) as [[x|e] w1]; cbn [fst snd] in *.
  - apply Hpinned. destruct Cs as (? & ? & ?), Hprep as (? & ? & ?).
    repeat split; congruence.
  - destruct C as (-> & _ & ->). simpl. apply Hprep.
Qed.

(** ** Loading the catalogue *)

Lemma load_events_app (a b : list (string * Z)) (w : World) :
  load_events (a ++ b) w =
  let '(ea, w1) := load_events a w in
  let '(eb, w2) := load_events b w1 in
  (ea ++ eb, w2).
Proof.
  revert w; induction a as [|[d t] a IH]; intros w; simpl.
  - destruct (load_events b w); reflexivity.
  - unfold Event_new. rewrite IH.
    destruct (load_events a _) as [ea w1]. destruct (load_events b w1). reflexivity.
Qed.

(** The objects are new and numbered in order; the clock is read once for
    each record; the generator is not used. *)
Lemma load_events_world (rows : list (string * Z)) (w : World) :
  oid <$> (load_events rows w).1 = seq (next_oid w) (length rows)
  /\ next_oid (load_events rows w).2 = (next_oid w + length rows)%nat
  /\ same_rand (load_events rows w).2 w
  /\ clock (load_events rows w).2 = clock w
  /\ clock_pos (load_events rows w).2 = (clock_pos w + length rows)%nat.
Proof.
  revert w; induction rows as [|[d t] rows IH]; intros w.
  - simpl. repeat split; auto; lia.
  - cbn [load_events]. unfold Event_new, datetime_now.
    match goal with |- context [load_events rows ?w1] =>
      destruct (IH w1) as (H3 & H4 & H5 & H6 & H7);
      destruct (load_events rows w1) as [events w2]
    end.
    cbn [fst snd rand rand_pos clock clock_pos next_oid] in *.
    rewrite fmap_cons, H3. simpl.
    repeat split; auto; try apply H5; lia.
Qed.

Lemma load_events_urls (rows : list (string * Z)) (w : World) :
  url <$> (load_events rows w).1 = (fun row => _make_url row.1) <$> rows.
Proof.
  revert w; induction rows as [|[d t] rows IH]; intros w; [reflexivity|].
  cbn [load_events]. unfold Event_new, datetime_now.
  match goal with |- context [load_events rows ?w1] =>
    specialize (IH w1); destruct (load_events rows w1) as [events w2]
  end.
  cbn [fst] in *. rewrite !fmap_cons, IH. reflexivity.
Qed.

Lemma load_events_content (rows : list (string * Z)) (w : World) :
  (fun e => (description e, date e)) <$> (load_events rows w).1 = rows
  /\ Forall (fun e => url e = _make_url (description e)) (load_events rows w).1.
Proof.
  revert w; induction rows as [|[d t] rows IH]; intros w.
  - simpl. split; [reflexivity | constructor].
  - cbn [load_events]. unfold Event_new, datetime_now.
    match goal with |- context [load_events rows ?w1] =>
      destruct (IH w1) as [H1 H2]; destruct (load_events rows w1) as [events w2]
    end.
    cbn [fst] in *. rewrite fmap_cons, H1. split; [reflexivity|].
    constructor; [reflexivity | exact H2].
Qed.

Lemma find_url_spec (u : string) (all_events : list Event) :
  match find_url u all_events with
  | Some e =>
    exists pre post, all_events = pre ++ e :: post /\ url e = u
                     /\ Forall (fun x => url x <> u) pre
  | None => u ∉ url <$> all_events
  end.
Proof.
  induction all_events as [|e l IH]; simpl.
  - intros H; inversion H.
  - destruct (String.eqb (url e) u) eqn:E.
    + apply String.eqb_eq in E. exists [], l. repeat split; auto.
    + apply String.eqb_neq in E. destruct (find_url u l) as [x|].
      * destruct IH as (pre & post & -> & Hu & Hpre).
        exists (e :: pre), post. repeat split; auto.
      * rewrite elem_of_cons. intros [H|H]; [congruence | by apply IH].
Qed.

Lemma Event_now_url (w : World) : url (Event_now w).1 = NOW_MARKER.
Proof. reflexivity. Qed.

(** A slug that [load_specific_events] resolves: the marker, or the slug of
    a record. *)
Lemma load_specific_loop_urls (urls : list string) (all_events : list Event) (w : World) :
  let result := (load_specific_loop urls all_events w).1 in
  url <$> result `sublist_of` urls
  /\ (url <$> result = urls <->
      Forall (fun u => u = NOW_MARKER \/ u ∈ url <$> all_events) urls).
Proof.
  cbv zeta. revert w; induction urls as [|u urls IH]; intros w.
  - simpl. split; [constructor|]. split; auto.
  - cbn [load_specific_loop]. destruct (String.eqb u NOW_MARKER) eqn:E.
    + apply String.eqb_eq in E. destruct (Event_now w) as [e w1] eqn:En.
      specialize (IH w1). destruct (load_specific_loop urls all_events w1) as [evs w2].
      cbn [fst] in *. destruct IH as [Hsub Hiff].
      assert (Hu : url e = u) by (rewrite E, <- (Event_now_url w), En; reflexivity).
      rewrite fmap_cons, Hu. split; [by apply sublist_skip|].
      rewrite Forall_cons, <- Hiff. split; [intros [= ?]; auto | intros [_ ->]; auto].
    + apply String.eqb_neq in E.
      pose proof (find_url_spec u all_events) as F.
      destruct (find_url u all_events) as [e|].
      * destruct F as (pre & post & Hall & Hu & _).
        specialize (IH w). destruct (load_specific_loop urls all_events w) as [evs w2].
        cbn [fst] in *. destruct IH as [Hsub Hiff].
        rewrite fmap_cons, Hu. split; [by apply sublist_skip|].
        rewrite Forall_cons, <- Hiff. split; [intros [= ?]|intros [_ ->]; auto].
        split; [|assumption]. right. rewrite Hall, fmap_app, elem_of_app, fmap_cons.
        right. rewrite Hu. left.
      * specialize (IH w). destruct IH as [Hsub Hiff].
        split; [by apply sublist_cons|].
        split.
        -- intros Heq. apply sublist_length in Hsub.
           rewrite Heq in Hsub. simpl in Hsub. lia.
        -- intros [[Hu|Hu] _]%Forall_cons; contradiction.
Qed.

Lemma load_specific_events_slugs (rows : list (string * Z)) (urls : list string)
    (w : World) :
  let result := (load_specific_events rows urls w).1 in
  url <$> result `sublist_of` urls
  /\ (url <$> result = urls <->
      Forall (fun u => u = NOW_MARKER \/ u ∈ (fun row => _make_url row.1) <$> rows) urls).
Proof.
  cbv zeta. unfold load_specific_events.
  pose proof (load_events_urls rows w) as Hurls.
  destruct (load_events rows w) as [all_events w1]. cbn [fst] in Hurls.
  rewrite <- Hurls. apply load_specific_loop_urls.
Qed.

Lemma find_url_existsb (u : string) (all_events : list Event) :
  match find_url u all_events with Some _ => true | None => false end
  = existsb (fun e => String.eqb (url e) u) all_events.
Proof.
  induction all_events as [|e l IH]; [reflexivity|]. cbn [find_url existsb].
  destruct (String.eqb (url e) u); [reflexivity | exact IH].
Qed.

Lemma existsb_slugs (u : string) (rows : list (string * Z)) (w : World) :
  existsb (fun e => String.eqb (url e) u) (load_events rows w).1
  = existsb (fun row => String.eqb (_make_url row.1) u) rows.
Proof.
  pose proof (load_events_urls rows w) as H.
  revert H. generalize (load_events rows w).1. intros l.
  revert l; induction rows as [|row rows IH]; intros [|e l] H; try discriminate H.
  - reflexivity.
  - rewrite !fmap_cons in H. injection H as He Hl.
    cbn [existsb]. rewrite He, (IH l Hl). reflexivity.
Qed.

Lemma load_specific_loop_filter (urls : list string) (all_events : list Event)
    (w : World) :
  url <$> (load_specific_loop urls all_events w).1
  = List.filter (fun u => String.eqb u NOW_MARKER
                          || existsb (fun e => String.eqb (url e) u) all_events) urls.
Proof.
  revert w; induction urls as [|u urls IH]; intros w; [reflexivity|].
  cbn [load_specific_loop List.filter]. rewrite <- find_url_existsb.
  destruct (String.eqb u NOW_MARKER) eqn:E; cbn [orb].
  - apply String.eqb_eq in E. destruct (Event_now w) as [e w1] eqn:En.
    specialize (IH w1). destruct (load_specific_loop urls all_events w1) as [evs w2].
    cbn [fst] in *. rewrite fmap_cons, IH. f_equal.
    rewrite E, <- (Event_now_url w), En. reflexivity.
  - pose proof (find_url_spec u all_events) as F.
    destruct (find_url u all_events) as [e|]; [|apply IH].
    destruct F as (_ & _ & _ & Hu & _).
    specialize (IH w). destruct (load_specific_loop urls all_events w) as [evs w2].
    cbn [fst] in *. rewrite fmap_cons, IH, Hu. reflexivity.
Qed.

Lemma load_specific_loop_origin (urls : list string) (all_events : list Event)
    (w : World) :
  Forall (fun e => description e = NOW_MARKER /\ url e = NOW_MARKER \/ e ∈ all_events)
         (load_specific_loop urls all_events w).1.
Proof.
  revert w; induction urls as [|u urls IH]; intros w; [constructor|].
  cbn [load_specific_loop]. destruct (String.eqb u NOW_MARKER).
  - destruct (Event_now w) as [e w1] eqn:En.
    specialize (IH w1). destruct (load_specific_loop urls all_events w1) as [evs w2].
    cbn [fst] in *. constructor; [|exact IH]. left.
    assert (e = (Event_now w).1) as -> by (rewrite En; reflexivity). by split.
  - pose proof (find_url_spec u all_events) as F.
    destruct (find_url u all_events) as [e|]; [|apply IH].
    destruct F as (pre & post & Hall & _).
    specialize (IH w). destruct (load_specific_loop urls all_events w) as [evs w2].
    cbn [fst] in *. constructor; [|exact IH]. right.
    rewrite Hall, elem_of_app, elem_of_cons. auto.
Qed.

(** X10: [load_specific_events] returns, in the order of the request, one
    event for each requested slug that is the marker "now" or the slug of a
    record, and silently nothing for any other slug: the slugs of the result
    are the requested slugs with the unresolvable ones left out, so they are
    the requested ones exactly when every one of them can be resolved; each
    event returned is an event labelled "now" or has the description and the
    date of a record. *)
Theorem load_specific_events_urls (rows : list (string * Z)) (urls : list string)
    (w : World) :
  let result := (load_specific_events rows urls w).1 in
  url <$> result = List.filter (resolvable rows) urls
  /\ url <$> result `sublist_of` urls
  /\ (url <$> result = urls <->
      Forall (fun u => u = NOW_MARKER \/ u ∈ (fun row => _make_url row.1) <$> rows) urls)
  /\ Forall (fun e => description e = NOW_MARKER /\ url e = NOW_MARKER
                      \/ (description e, date e) ∈ rows) result.
Proof.
  cbv zeta. split; [|split; [|split]].
  - unfold load_specific_events, resolvable.
    pose proof (fun u => existsb_slugs u rows w) as Hex.
    destruct (load_events rows w) as [all_events w1]. cbn [fst] in Hex.
    rewrite load_specific_loop_filter.
    induction urls as [|u urls IH]; [reflexivity|].
    cbn [List.filter]. rewrite Hex, IH. reflexivity.
  - apply (load_specific_events_slugs rows urls w).
  - apply (load_specific_events_slugs rows urls w).
  - unfold load_specific_events.
    destruct (load_events_content rows w) as [Hc _].
    destruct (load_events rows w) as [all_events w1]. cbn [fst] in Hc.
    eapply Forall_impl; [apply load_specific_loop_origin|].
    intros e [H|H]; [by left | right].
    rewrite <- Hc. by apply (list_elem_of_fmap_2 (fun e => (description e, date e))).
Qed.

Lemma find_url_first (u : string) (pre post : list Event) (e : Event) :
  Forall (fun x => url x <> u) pre -> url e = u ->
  find_url u (pre ++ e :: post) = Some e.
Proof.
  intros Hpre He. induction Hpre as [|x pre Hx Hpre IH]; simpl.
  - apply String.eqb_eq in He. by rewrite He.
  - apply String.eqb_neq in Hx. by rewrite Hx.
Qed.

(** X11: when several records have the same slug, [load_specific_events]
    resolves the slug to the first of them: the event it returns is the one
    made from that record. *)
Theorem load_specific_events_first_match (pre post : list (string * Z))
    (d : string) (t : Z) (w : World) :
  _make_url d <> NOW_MARKER ->
  Forall (fun row => _make_url row.1 <> _make_url d) pre ->
  (load_specific_events (pre ++ (d, t) :: post) [_make_url d] w).1
  = [Event_init (next_oid w + length pre) d t].
Proof.
  intros Hnow Hpre. unfold load_specific_events.
  rewrite load_events_app.
  pose proof (load_events_urls pre w) as Hurls.
  destruct (load_events_world pre w) as (_ & Hoid & _).
  destruct (load_events pre w) as [ea w1]. cbn [fst snd] in *.
  cbn [load_events]. unfold Event_new, datetime_now.
  destruct (load_events post _) as [eb w2].
  cbn [load_specific_loop]. apply String.eqb_neq in Hnow. rewrite Hnow.
  rewrite find_url_first.
  - simpl. rewrite Hoid. reflexivity.
  - apply Forall_forall. intros x Hx Heq.
    apply (list_elem_of_fmap_2 url) in Hx. rewrite Hurls, Heq in Hx.
    apply list_elem_of_fmap in Hx as (row & Hrow & Hin).
    eapply Forall_forall in Hpre; [|exact Hin]. by apply Hpre.
  - reflexivity.
Qed.

Lemma load_specific_events_first_match_witness :
  (load_specific_events
     [("Moon landing"%string, -14256000000000);
      ("Fall of Saigon"%string, 168048000000000);
      ("fall of SAIGON!"%string, 0)]
     ["fall-of-saigon"%string] (world_drawing 0)).1
  = [Event_init 101 "Fall of Saigon" 168048000000000].
Proof.
  apply (load_specific_events_first_match
           [("Moon landing"%string, -14256000000000)]
           [("fall of SAIGON!"%string, 0)]
           "Fall of Saigon" 168048000000000 (world_drawing 0)).
  - vm_compute. discriminate.
  - repeat constructor. vm_compute. discriminate.
Defined.

(** X12: the slug "now" is never looked up in the catalogue: it resolves to
    a new event labelled "now" that carries the reading of the clock taken
    after the catalogue has been loaded, even when a record has that slug. *)
Theorem load_specific_events_now (rows : list (string * Z)) (w : World) :
  (load_specific_events rows [NOW_MARKER] w).1
  = [Event_init (next_oid w + length rows) NOW_MARKER
       (clock w (clock_pos w + length rows)%nat)].
Proof.
  unfold load_specific_events.
  destruct (load_events_world rows w) as (_ & Hoid & _ & Hc & Hp).
  destruct (load_events rows w) as [all_events w1]. cbn [fst snd] in *.
  cbn [load_specific_loop]. unfold Event_now, datetime_now. simpl.
  rewrite Hoid, Hc, Hp. reflexivity.
Qed.

(** ** [load_events_and_make_timeghost] and the views *)

Lemma make_outcomes (events : list Event) (m : option Event)
    (is_now is_random : bool) (w : World) :
  match (make events m is_now is_random w).1.1 with
  | Ok tg => is_valid tg = true
  | Raise e => e = UnboundLocalError \/ e = IndexError
  end.
Proof.
  unfold make. destruct (if is_random then _ else _) as [events0 w0].
  apply make_loop_outcomes.
Qed.

(** X13: [load_events_and_make_timeghost] returns a valid Timeghost with
    [tries] between 1 and 100, or lets an [UnboundLocalError] or an
    [IndexError] through; its handler of [TimeghostCreationError] never runs,
    so it never returns the "Can't make timeghost" string. *)
Theorem load_events_and_make_timeghost_outcomes (rows : list (string * Z))
    (is_random : bool) (m : option Event) (is_now : bool) (w : World) :
  match (load_events_and_make_timeghost rows is_random m is_now w).1 with
  | Ok (MadeTimeghost tg) => is_valid tg = true /\ (1 <= tries tg <= 100)%nat
  | Ok (CantMake _) => False
  | Raise e => e = UnboundLocalError \/ e = IndexError
  end.
Proof.
  unfold load_events_and_make_timeghost, make.
  destruct (load_events rows w) as [events w1].
  destruct (if is_random then _ else _) as [events0 w0].
  pose proof (make_loop_outcomes NUM_TRIES 0 events0 m is_now w0) as O.
  pose proof (make_loop_returns NUM_TRIES 0 events0 m is_now w0) as R.
  destruct (make_loop NUM_TRIES 0 events0 m is_now None w0) as [[[tg|e] final] w2].
  - cbn [fst snd] in *. destruct (R tg eq_refl) as [Hv Hb].
    unfold NUM_TRIES in Hb. split; [exact Hv | lia].
  - cbn [fst snd] in *. destruct O as [-> | ->]; cbn [fst]; auto.
Qed.

Lemma find_url_none (u : string) (all_events : list Event) :
  u ∉ url <$> all_events -> find_url u all_events = None.
Proof.
  intros Hnot. pose proof (find_url_spec u all_events) as F.
  destruct (find_url u all_events) as [e|]; [|reflexivity].
  destruct F as (pre & post & -> & Hu & _). exfalso. apply Hnot.
  rewrite fmap_app, elem_of_app, fmap_cons, Hu. right. left.
Qed.

Lemma load_specific_events_unknown (rows : list (string * Z)) (u : string) (w : World) :
  u <> NOW_MARKER -> u ∉ (fun row => _make_url row.1) <$> rows ->
  (load_specific_events rows [u] w).1 = [].
Proof.
  intros Hnow Hnot. unfold load_specific_events.
  pose proof (load_events_urls rows w) as Hurls.
  destruct (load_events rows w) as [all_events w1]. cbn [fst] in Hurls.
  cbn [load_specific_loop]. apply String.eqb_neq in Hnow. rewrite Hnow.
  rewrite find_url_none by (by rewrite Hurls). reflexivity.
Qed.

Lemma display_with_middle_unknown (rows : list (string * Z)) (is_random is_now : bool)
    (u : string) (w : World) :
  u <> NOW_MARKER -> u ∉ (fun row => _make_url row.1) <$> rows ->
  (display_with_middle rows is_random is_now u w).1 = Raise IndexError.
Proof.
  intros Hnow Hnot. unfold display_with_middle.
  pose proof (load_specific_events_unknown rows u w Hnow Hnot) as H.
  destruct (load_specific_events rows [u] w) as [event w1]. cbn [fst] in H.
  subst event. reflexivity.
Qed.

(** X14: the four views that take the slug of the middle event raise
    [IndexError], at [event[0]], when the slug is neither "now" nor the slug
    of a record of the catalogue. *)
Theorem display_unknown_slug (rows : list (string * Z)) (event_url : string)
    (w : World) :
  event_url <> NOW_MARKER ->
  event_url ∉ (fun row => _make_url row.1) <$> rows ->
  (display_timeghost_worst rows event_url w).1 = Raise IndexError
  /\ (display_timeghost_random rows event_url w).1 = Raise IndexError
  /\ (display_timeghost_arbitrary_worst rows event_url w).1 = Raise IndexError
  /\ (display_timeghost_arbitrary_random rows event_url w).1 = Raise IndexError.
Proof.
  intros Hnow Hnot.
  unfold display_timeghost_worst, display_timeghost_random,
    display_timeghost_arbitrary_worst, display_timeghost_arbitrary_random.
  repeat split; by apply display_with_middle_unknown.
Qed.

Lemma display_unknown_slug_witness :
  (display_timeghost_worst rows_catalogue "fall-of-rome" (world_drawing 0)).1
    = Raise IndexError
  /\ (display_timeghost_arbitrary_random rows_catalogue "fall-of-rome"
        (world_drawing 0)).1 = Raise IndexError.
Proof.
  assert (Hnow : "fall-of-rome"%string <> NOW_MARKER) by discriminate.
  assert (Hnot : "fall-of-rome"%string ∉ (fun row => _make_url row.1) <$> rows_catalogue).
  { intros H. apply list_elem_of_fmap in H as (row & Hrow & Hin).
    unfold rows_catalogue in Hin. rewrite !elem_of_cons, elem_of_nil in Hin.
    destruct Hin as [->|[->|[->|[]]]]; vm_compute in Hrow; discriminate Hrow. }
  destruct (display_unknown_slug rows_catalogue "fall-of-rome" (world_drawing 0)
              Hnow Hnot) as (H1 & _ & _ & H4).
  split; assumption.
Defined.

Lemma display_with_middle_result (rows : list (string * Z)) (is_random is_now : bool)
    (u : string) (w : World) :
  match (display_with_middle rows is_random is_now u w).1 with
  | Ok (MadeTimeghost tg) => url (middle tg) = u /\ is_valid tg = true
  | Ok (CantMake _) => False
  | Raise e => e = IndexError \/ e = UnboundLocalError
  end.
Proof.
  unfold display_with_middle.
  pose proof (load_specific_events_slugs rows [u] w) as [Hsub _]. cbv zeta in Hsub.
  destruct (load_specific_events rows [u] w) as [[|e0 rest] w1]; cbn [fst] in *.
  { left; reflexivity. }
  assert (Hu : url e0 = u).
  { assert (Hin : url e0 ∈ [u])
      by (eapply elem_of_sublist; [|exact Hsub]; rewrite fmap_cons; left).
    by apply list_elem_of_singleton in Hin. }
  unfold load_events_and_make_timeghost.
  destruct (load_events rows w1) as [events w2].
  pose proof (make_triple events (Some e0) is_now is_random w2) as T.
  pose proof (make_outcomes events (Some e0) is_now is_random w2) as O.
  destruct (make events (Some e0) is_now is_random w2) as [[[tg|e] final] w3];
    cbn [fst snd] in *.
  - destruct (T tg eq_refl) as (Hv & Hm & _). rewrite Hm. by split.
  - destruct O as [-> | ->]; cbn [fst]; auto.
Qed.

(** X15: each of the four views that take the slug of the middle event hands
    to the template a valid Timeghost whose middle event has that slug, or
    fails with [IndexError] or [UnboundLocalError]; it never hands over the
    "Can't make timeghost" string. *)
Theorem display_middle_has_slug (rows : list (string * Z)) (event_url : string)
    (w : World) :
  let handed r :=
    match r with
    | Ok (MadeTimeghost tg) => url (middle tg) = event_url /\ is_valid tg = true
    | Ok (CantMake _) => False
    | Raise e => e = IndexError \/ e = UnboundLocalError
    end in
  handed (display_timeghost_worst rows event_url w).1
  /\ handed (display_timeghost_random rows event_url w).1
  /\ handed (display_timeghost_arbitrary_worst rows event_url w).1
  /\ handed (display_timeghost_arbitrary_random rows event_url w).1.
Proof.
  cbv zeta.
  unfold display_timeghost_worst, display_timeghost_random,
    display_timeghost_arbitrary_worst, display_timeghost_arbitrary_random.
  repeat split; apply display_with_middle_result.
Qed.

(** ** Identity of loaded events *)

Lemma load_specific_loop_allocated (urls : list string) (all_events : list Event)
    (w : World) :
  allocated_below all_events (next_oid w) ->
  allocated_below (load_specific_loop urls all_events w).1
    (next_oid (load_specific_loop urls all_events w).2)
  /\ (next_oid w <= next_oid (load_specific_loop urls all_events w).2)%nat.
Proof.
  unfold allocated_below.
  revert w; induction urls as [|u urls IH]; intros w Hall.
  - simpl. split; [constructor | lia].
  - cbn [load_specific_loop]. destruct (String.eqb u NOW_MARKER).
    + unfold Event_now, datetime_now.
      match goal with |- context [load_specific_loop urls all_events ?w1] =>
        destruct (IH w1) as [H1 H2];
        [cbn [next_oid]; eapply Forall_impl; [exact Hall | intros x Hx; simpl in *; lia]|];
        destruct (load_specific_loop urls all_events w1) as [evs w2]
      end.
      cbn [fst snd next_oid] in *. split; [|lia].
      constructor; [simpl; lia | exact H1].
    + pose proof (find_url_spec u all_events) as F.
      destruct (find_url u all_events) as [e|]; [|by apply IH].
      destruct F as (pre & post & Hsplit & _).
      destruct (IH w Hall) as [H1 H2].
      destruct (load_specific_loop urls all_events w) as [evs w2].
      cbn [fst snd] in *. split; [|exact H2].
      constructor; [|exact H1].
      eapply Forall_forall in Hall; [|rewrite Hsplit, elem_of_app, elem_of_cons; auto].
      lia.
Qed.

Lemma load_specific_events_allocated (rows : list (string * Z)) (urls : list string)
    (w : World) :
  allocated_below (load_specific_events rows urls w).1
    (next_oid (load_specific_events rows urls w).2).
Proof.
  unfold load_specific_events.
  destruct (load_events_world rows w) as (Hoid & Hnext & _).
  destruct (load_events rows w) as [all_events w1]. cbn [fst snd] in *.
  apply load_specific_loop_allocated. unfold allocated_below.
  apply Forall_forall. intros e He.
  apply (list_elem_of_fmap_2 oid) in He. rewrite Hoid in He.
  apply elem_of_seq in He. lia.
Qed.

(** X16: an event that [load_specific_events] returned is not, as an object,
    in a list that [load_events] makes afterwards.  Pinned as the middle of
    [make] on such a list, as the views do, it is never found in the pool:
    nothing is removed, and the list at the end holds every event of the
    pool, the record of the middle included. *)
Theorem url_middle_never_removed (rows : list (string * Z)) (urls : list string)
    (is_now is_random : bool) (w : World) :
  let '(event, w1) := load_specific_events rows urls w in
  let '(events, w2) := load_events rows w1 in
  Forall (fun m =>
            list_contains m events = false
            /\ (make events (Some m) is_now is_random w2).1.2 ≡ₚ events) event.
Proof.
  pose proof (load_specific_events_allocated rows urls w) as Hbelow.
  destruct (load_specific_events rows urls w) as [event w1]. cbn [fst snd] in Hbelow.
  destruct (load_events_world rows w1) as (Hoid & _).
  destruct (load_events rows w1) as [events w2]. cbn [fst] in Hoid.
  apply Forall_forall. intros m Hm.
  eapply Forall_forall in Hbelow; [|exact Hm].
  assert (Hnot : oid m ∉ oid <$> events).
  { rewrite Hoid, elem_of_seq. lia. }
  split.
  - apply not_true_iff_false. by rewrite list_contains_oid.
  - unfold make. pose proof (prepared_perm events is_random w2) as Hperm.
    destruct (if is_random then _ else _) as [events0 w0]. cbn [fst] in Hperm.
    rewrite make_loop_frame; [exact Hperm|].
    apply not_true_iff_false. rewrite list_contains_oid, Hperm. exact Hnot.
Qed.

(** ** The view of a fully specified triple *)

Lemma sublist_same_length {A : Type} (l1 l2 : list A) :
  l1 `sublist_of` l2 -> (length l2 <= length l1)%nat -> l1 = l2.
Proof.
  induction 1 as [|x l1 l2 Hsub IH|x l1 l2 Hsub IH]; simpl; intros Hlen.
  - reflexivity.
  - f_equal. apply IH. lia.
  - apply sublist_length in Hsub. lia.
Qed.

(** X17: the view of a fully specified triple builds the Timeghost without
    validation from the three events that the slugs resolve to, and the
    permalink of that Timeghost is the requested path; when one of the three
    slugs is neither "now" nor the slug of a record it raises
    [IndexError]. *)
Theorem fully_specified_permalink (rows : list (string * Z))
    (first_url middle_url last_url : string) (w : World) :
  let resolved :=
    Forall (fun u => u = NOW_MARKER \/ u ∈ (fun row => _make_url row.1) <$> rows)
           [first_url; middle_url; last_url] in
  match (display_timeghost_arbitrary_fully_specified rows
           first_url middle_url last_url w).1 with
  | Ok tg =>
    resolved
    /\ url (first tg) = first_url /\ url (middle tg) = middle_url
    /\ url (last tg) = last_url
    /\ permalink_url tg
       = String.append "/" (String.append first_url
           (String.append "/" (String.append middle_url
              (String.append "/" last_url))))
    /\ tries tg = 1%nat
  | Raise e => e = IndexError /\ ~ resolved
  end.
Proof.
  cbv zeta. unfold display_timeghost_arbitrary_fully_specified.
  pose proof (load_specific_events_slugs rows [first_url; middle_url; last_url] w)
    as [Hsub Hiff]. cbv zeta in Hsub, Hiff.
  destruct (load_specific_events rows _ w) as [events w1]. cbn [fst] in *.
  assert (Hshort : (length events < 3)%nat -> ~ Forall
            (fun u => u = NOW_MARKER \/ u ∈ (fun row => _make_url row.1) <$> rows)
            [first_url; middle_url; last_url]).
  { intros Hlen Hall. apply Hiff in Hall.
    apply (f_equal length) in Hall. rewrite length_fmap in Hall. simpl in Hall. lia. }
  destruct events as [|e0 [|e1 [|e2 rest]]];
    try (cbn [fst]; split; [reflexivity | apply Hshort; simpl; lia]).
  cbn [fst]. unfold Timeghost_init.
  assert (Heq : url <$> (e0 :: e1 :: e2 :: rest) = [first_url; middle_url; last_url]).
  { apply sublist_same_length; [exact Hsub|].
    rewrite length_fmap. simpl. lia. }
  rewrite !fmap_cons in Heq. injection Heq as H0 H1 H2 H3.
  split; [apply Hiff; rewrite !fmap_cons, H0, H1, H2, H3; reflexivity|].
  unfold permalink_url. cbn [first middle last tries].
  rewrite H0, H1, H2. auto.
Qed.

(** ** From a permalink back to the triple *)

Lemma find_url_unique (e : Event) (all_events : list Event) :
  NoDup (url <$> all_events) -> e ∈ all_events ->
  find_url (url e) all_events = Some e.
Proof.
  induction all_events as [|x l IH]; intros Hnd Hin; [inversion Hin|].
  rewrite fmap_cons in Hnd. apply NoDup_cons in Hnd as [Hx Hnd].
  cbn [find_url]. apply elem_of_cons in Hin as [->|Hin].
  - by rewrite String.eqb_refl.
  - destruct (String.eqb (url x) (url e)) eqn:E; [|by apply IH].
    apply String.eqb_eq in E. exfalso. apply Hx. rewrite E.
    by apply list_elem_of_fmap_2.
Qed.

Lemma load_specific_loop_members (es all_events : list Event) (w : World) :
  NoDup (url <$> all_events) ->
  Forall (fun e => e ∈ all_events /\ url e <> NOW_MARKER) es ->
  load_specific_loop (url <$> es) all_events w = (es, w).
Proof.
  intros Hnd Hes. induction Hes as [|e es [Hin Hnow] Hes IH]; [reflexivity|].
  rewrite fmap_cons. cbn [load_specific_loop].
  apply String.eqb_neq in Hnow. rewrite Hnow, (find_url_unique e all_events Hnd Hin), IH.
  reflexivity.
Qed.

(** The event that another load of the same records makes of the record of
    [e]. *)
Lemma load_events_twin (rows : list (string * Z)) (w0 w : World) (e : Event) :
  e ∈ (load_events rows w0).1 ->
  exists e', e' ∈ (load_events rows w).1
    /\ description e' = description e /\ date e' = date e /\ url e' = url e.
Proof.
  intros Hin.
  destruct (load_events_content rows w0) as [C0 U0].
  destruct (load_events_content rows w) as [C U].
  assert (Hrow : (description e, date e) ∈ rows).
  { rewrite <- C0. by apply (list_elem_of_fmap_2 (fun e => (description e, date e))). }
  rewrite <- C in Hrow. apply list_elem_of_fmap in Hrow as (e' & Heq & Hin').
  injection Heq as Hd Ht. exists e'. repeat split; auto.
  eapply Forall_forall in U0; [|exact Hin]. eapply Forall_forall in U; [|exact Hin'].
  congruence.
Qed.

(** X18: in a catalogue whose records have distinct slugs, none of them
    "now", the view of a fully specified triple, called with the slugs of
    three events loaded from the catalogue, returns the Timeghost of events
    with the same descriptions and dates, with the same validity and the
    same permalink. *)
Theorem permalink_resolves (rows : list (string * Z)) (w0 w : World)
    (e1 e2 e3 : Event) :
  slugs_unique rows ->
  Forall (fun row => _make_url row.1 <> NOW_MARKER) rows ->
  e1 ∈ (load_events rows w0).1 ->
  e2 ∈ (load_events rows w0).1 ->
  e3 ∈ (load_events rows w0).1 ->
  exists tg,
    (display_timeghost_arbitrary_fully_specified rows (url e1) (url e2) (url e3) w).1
      = Ok tg
    /\ (description (first tg), date (first tg)) = (description e1, date e1)
    /\ (description (middle tg), date (middle tg)) = (description e2, date e2)
    /\ (description (last tg), date (last tg)) = (description e3, date e3)
    /\ is_valid tg = is_valid (mkTimeghost e1 e2 e3 1)
    /\ permalink_url tg = permalink_url (mkTimeghost e1 e2 e3 1).
Proof.
  intros Huniq Hnow H1 H2 H3.
  unfold display_timeghost_arbitrary_fully_specified, load_specific_events.
  destruct (load_events_twin rows w0 w e1 H1) as (a & Ha & Had & Hat & Hau).
  destruct (load_events_twin rows w0 w e2 H2) as (b & Hb & Hbd & Hbt & Hbu).
  destruct (load_events_twin rows w0 w e3 H3) as (c & Hc & Hcd & Hct & Hcu).
  pose proof (load_events_urls rows w) as Hurls.
  destruct (load_events_content rows w) as [_ Hslug].
  destruct (load_events rows w) as [all_events w1]. cbn [fst] in *.
  assert (Hnd : NoDup (url <$> all_events)) by (rewrite Hurls; exact Huniq).
  assert (Hnot : forall x, x ∈ all_events -> url x <> NOW_MARKER).
  { intros x Hx Heq. apply (list_elem_of_fmap_2 url) in Hx.
    rewrite Hurls in Hx. apply list_elem_of_fmap in Hx as (row & Hrow & Hin).
    eapply Forall_forall in Hnow; [|exact Hin]. congruence. }
  pose proof (load_specific_loop_members [a; b; c] all_events w1 Hnd) as L.
  rewrite !fmap_cons, fmap_nil, Hau, Hbu, Hcu in L.
  rewrite L by (repeat constructor; auto).
  cbn [fst]. exists (mkTimeghost a b c 1). split; [reflexivity|].
  cbn [first middle last]. rewrite Had, Hat, Hbd, Hbt, Hcd, Hct.
  repeat split; auto.
  - unfold is_valid, Event_lt, first_gap, last_gap, Event_sub. cbn [first middle last].
    by rewrite Hat, Hbt, Hct.
  - unfold permalink_url. cbn [first middle last]. by rewrite Hau, Hbu, Hcu.
Qed.

Lemma permalink_resolves_witness :
  exists tg,
    (display_timeghost_arbitrary_fully_specified rows_catalogue
       "moon-landing" "fall-of-saigon" "fall-of-the-berlin-wall" (world_drawing 1)).1
      = Ok tg
    /\ (description (first tg), date (first tg))
       = ("Moon landing"%string, -14256000000000)
    /\ is_valid tg = true.
Proof.
  assert (Hu : slugs_unique rows_catalogue).
  { unfold slugs_unique. vm_compute fmap.
    repeat (apply NoDup_cons; split;
            [rewrite ?elem_of_cons, elem_of_nil; intros H;
             repeat (destruct H as [H|H]; try discriminate H); exact H|]).
    apply NoDup_nil_2. }
  assert (Hn : Forall (fun row => _make_url row.1 <> NOW_MARKER) rows_catalogue)
    by (repeat constructor; vm_compute; discriminate).
  destruct (permalink_resolves rows_catalogue (world_drawing 0) (world_drawing 1)
              (Event_init 101 "Moon landing" (-14256000000000))
              (Event_init 100 "Fall of Saigon" 168048000000000)
              (Event_init 102 "Fall of the Berlin Wall" 626572800000000) Hu Hn)
    as (tg & Htg & Hf & _ & _ & Hv & _).
  - vm_compute. right. left.
  - vm_compute. left.
  - vm_compute. right. right. left.
  - exists tg. split; [exact Htg|]. split; [exact Hf | rewrite Hv; vm_compute; reflexivity].
Defined.

(** ** The search finds what there is to find *)

Lemma make_try_now_complete (events : list Event) (m e : Event) (w : World) :
  e ∈ events -> date e < date m ->
  date m - date e < clock w (clock_pos w) - date m ->
  exists tg, (make_try events m true w).1 = Ok tg.
Proof.
  intros Hin Hlt Hgap. unfold make_try, Event_now, datetime_now, _make. cbn [fst].
  match goal with |- context [_make_scan ?inv ?tge events] =>
    pose proof (_make_scan_spec inv tge events) as S;
    destruct (_make_scan inv tge events) as [tg|x]
  end; [by exists tg|].
  exfalso. cbv zeta in S. destruct S as [_ Hall].
  eapply Forall_forall in Hall; [|exact Hin]. cbn [fst snd] in Hall.
  destruct Hall as [Hgt|Hinv].
  - unfold Event_gt, Event_lt in Hgt. apply Z.ltb_lt in Hgt. lia.
  - apply is_valid_false_iff in Hinv.
    unfold first_gap, last_gap, Event_sub in Hinv. simpl in Hinv. lia.
Qed.

(** X20: with a pinned middle and [is_now] true, when some event of the
    pool other than the middle object is earlier than the middle and closer
    to it than the clock's reading is, [make] returns a Timeghost at its
    first attempt, sorted or shuffled. *)
Theorem make_now_complete (events : list Event) (m e : Event)
    (is_random : bool) (w : World) :
  e ∈ events -> Event_is e m = false ->
  date e < date m ->
  date m - date e < clock w (clock_pos w) - date m ->
  exists tg,
    (make events (Some m) true is_random w).1.1 = Ok tg /\ tries tg = 1%nat.
Proof.
  intros Hin Hne Hlt Hgap. unfold make.
  pose proof (prepared_perm events is_random w) as Hperm.
  assert (Hclock : same_clock (if is_random then shuffle events w else (sort events, w)).2 w).
  { destruct is_random; [apply shuffle_from_same_clock | by repeat split]. }
  destruct (if is_random then _ else _) as [events0 w0]. cbn [fst snd] in *.
  destruct Hclock as (Hc & Hp & _).
  unfold NUM_TRIES. rewrite make_loop_step.
  destruct (make_try_now_complete (discard m events0) m e w0) as [tg Htg].
  - apply discard_keeps; [by rewrite Hperm | exact Hne].
  - exact Hlt.
  - by rewrite Hc, Hp.
  - destruct (make_try (discard m events0) m true w0) as [r w2]. cbn [fst] in Htg.
    subst r. exists (set_tries tg (0 + 1)). split; reflexivity.
Qed.

Lemma make_now_complete_witness :
  exists tg,
    (make [ev_saigon; ev_wall; ev_moon] (Some ev_wall) true true
          (world_drawing 1)).1.1 = Ok tg
    /\ tries tg = 1%nat.
Proof.
  apply (make_now_complete [ev_saigon; ev_wall; ev_moon] ev_wall ev_saigon true
           (world_drawing 1)).
  - left.
  - reflexivity.
  - vm_compute; reflexivity.
  - vm_compute; reflexivity.
Defined.

(** ** The precision of [verbose_factoid] *)

(** X19: when the loop of [verbose_factoid] ends, the precision it has
    reached is the smallest one at which the two year figures are different
    strings: at every smaller precision they are the same string. *)
Theorem verbose_factoid_precision (fuel : nat) (tg : Timeghost) (precision : nat) :
  precision_search fuel tg 0 = Some precision ->
  format_f (first_gap_years tg) precision <> format_f (last_gap_years tg) precision
  /\ forall q, (q < precision)%nat ->
       format_f (first_gap_years tg) q = format_f (last_gap_years tg) q.
Proof.
  intros H. assert (G : forall start,
    precision_search fuel tg start = Some precision ->
    (start <= precision)%nat
    /\ format_f (first_gap_years tg) precision <> format_f (last_gap_years tg) precision
    /\ forall q, (start <= q < precision)%nat ->
         format_f (first_gap_years tg) q = format_f (last_gap_years tg) q).
  { clear H. induction fuel as [|fuel IH]; intros start; [discriminate|].
    cbn [precision_search]. destruct (String.eqb _ _) eqn:E.
    - intros H. apply IH in H as (Hle & Hne & Heq).
      split; [lia|]. split; [exact Hne|].
      intros q Hq. destruct (decide (q = start)) as [->|Hqs].
      + apply String.eqb_eq, E.
      + apply Heq. lia.
    - intros [= <-]. split; [lia|]. split.
      + apply String.eqb_neq, E.
      + intros q Hq. lia. }
  destruct (G 0%nat H) as (_ & Hne & Heq). split; [exact Hne|].
  intros q Hq. apply Heq. lia.
Qed.

Lemma verbose_factoid_precision_witness :
  precision_search 5 tg_tenths 0 = Some 1%nat
  /\ format_f (first_gap_years tg_tenths) 1 = "20.3"%string
  /\ format_f (last_gap_years tg_tenths) 1 = "20.4"%string
  /\ format_f (first_gap_years tg_tenths) 0 = format_f (last_gap_years tg_tenths) 0.
Proof.
  assert (H : precision_search 5 tg_tenths 0 = Some 1%nat) by (vm_compute; reflexivity).
  destruct (verbose_factoid_precision 5 tg_tenths 1 H) as [_ Heq].
  split; [exact H|]. split; [vm_compute; reflexivity|].
  split; [vm_compute; reflexivity|]. apply Heq. lia.
Defined.
